(** * To-do list: the task reducer and its localStorage persistence

    A shallow embedding of [src/app/components/TodoList.tsx] (the reducer
    [tasksReducer], the submit handler [handleAddTask], the lazy initialiser
    and the persisting effect of the [TodoList] component) and of
    [src/app/hooks/useLocalStorage.ts] (the generic hook [useLocalStorage]).

    Conventions of the embedding:
    - a JavaScript string is the list of its UTF-16 code units, each an [N]
      below [2^16];
    - the browser is explicit state: [window] is absent on the server, the
      storage area is a finite map from keys to strings, the console is the
      list of what was logged;
    - an exception is a value: a computation returns [Returned] or [Raised]. *)

From Stdlib Require Import NArith String Ascii.
From stdpp Require Import base numbers list option gmap.

Local Open Scope N_scope.

(** ** JavaScript strings *)

Abbreviation jsstring := (list N).

(** An ASCII literal as a JavaScript string. *)
Definition js (s : string) : jsstring :=
  (λ a, N_of_ascii a) <$> list_ascii_of_string s.

Definition code_unit (c : N) : Prop := c < 65536.
Definition wf_string (s : jsstring) : Prop := Forall code_unit s.

(** ** The data model ([Task] of [@/lib/interface], [Action]) *)

Record Task := mkTask { id : jsstring; text : jsstring; completed : bool }.

#[global] Instance Task_eq_dec : EqDecision Task.
Proof. solve_decision. Defined.

(** The four action kinds of the source's union type, and [OTHER kind] for
    an action object whose [type] is none of the four tags: the constructor
    reaches the [default] branch of the [switch]. *)
Inductive Action :=
| ADD (text : jsstring)
| TOGGLE (id : jsstring)
| DELETE (id : jsstring)
| CLEAR_COMPLETED
| OTHER (kind : jsstring).

Definition ids (state : list Task) : list jsstring := id <$> state.

(** ** [tasksReducer]

    [uuid] is the string that the call [crypto.randomUUID()] returns in the
    [ADD] branch; the other branches do not make the call. *)
Definition tasksReducer (uuid : jsstring) (state : list Task) (action : Action)
  : list Task :=
  match action with
  | ADD text => state ++ [mkTask uuid text false]
  | TOGGLE i =>
      (λ t, if decide (id t = i)
            then mkTask (id t) (text t) (negb (completed t)) else t) <$> state
  | DELETE i => filter (λ t, id t ≠ i) state
  | CLEAR_COMPLETED => filter (λ t, negb (completed t) = true) state
  | OTHER _ => state
  end.

(** ** [handleAddTask]

    [String.prototype.trim] removes the code units of ECMAScript's WhiteSpace
    and LineTerminator productions from both ends. *)
Definition is_white_space (c : N) : bool :=
  bool_decide (c ∈ [9; 10; 11; 12; 13; 32; 160; 5760; 8232; 8233; 8239; 8287;
                    12288; 65279])
  || ((8192 <=? c) && (c <=? 8202)).

Fixpoint trim_start (s : jsstring) : jsstring :=
  match s with
  | c :: s' => if is_white_space c then trim_start s' else s
  | [] => []
  end.

Definition trim (s : jsstring) : jsstring :=
  reverse (trim_start (reverse (trim_start s))).

(** The part of the component's state that the submit handler touches. *)
Record Form := mkForm { tasks : list Task; newTaskText : jsstring }.

(** [if (!text) return;]: the empty string is the only falsy string. *)
Definition handleAddTask (uuid : jsstring) (f : Form) : Form :=
  let text := trim (newTaskText f) in
  match text with
  | [] => f
  | _ :: _ => mkForm (tasksReducer uuid (tasks f) (ADD text)) []
  end.

Definition is_digit (c : N) : bool := (48 <=? c) && (c <=? 57).
Definition is_lower_hex (c : N) : bool :=
  is_digit c || ((97 <=? c) && (c <=? 102)).

(** The shape of the strings [crypto.randomUUID] returns: a version 4 UUID
    in lower-case hexadecimal, [xxxxxxxx-xxxx-4xxx-yxxx-xxxxxxxxxxxx] with
    [y] one of [8 9 a b]. [uuid_unit_ok k c] checks the unit [c] at
    position [k]. *)
Definition uuid_unit_ok (k : nat) (c : N) : bool :=
  if bool_decide (k ∈ [8; 13; 18; 23]%nat) then c =? 45
  else if bool_decide (k = 14%nat) then c =? 52
  else if bool_decide (k = 19%nat) then bool_decide (c ∈ [56; 57; 97; 98])
  else is_lower_hex c.

Definition is_uuid_v4 (s : jsstring) : bool :=
  bool_decide (length s = 36%nat)
  && forallb (λ kc, uuid_unit_ok kc.1 kc.2) (zip (seq 0 36) s).

(** ** JSON: the values, [JSON.stringify] and [JSON.parse]

    The two functions are the platform's; they are modelled after ECMA-262
    (SerializeJSONProperty without indentation, QuoteJSONString, and the
    JSON grammar). A number is kept as its lexeme: no claim below looks
    inside one. An object is its list of properties in creation order. *)
#[warnings="-register-all"] Inductive value :=
| JNull
| JBool (b : bool)
| JNumber (lexeme : jsstring)
| JString (s : jsstring)
| JArray (elements : list value)
| JObject (props : list (jsstring * value)).

(** *** [JSON.stringify] *)

Definition hex_digit (d : N) : N := if d <? 10 then 48 + d else 87 + d.

(** [\uXXXX], in lower-case hexadecimal. *)
Definition unicode_escape (c : N) : jsstring :=
  [92; 117; hex_digit (c / 4096 mod 16); hex_digit (c / 256 mod 16);
   hex_digit (c / 16 mod 16); hex_digit (c mod 16)].

Definition is_high_surrogate (c : N) : bool := (55296 <=? c) && (c <=? 56319).
Definition is_low_surrogate (c : N) : bool := (56320 <=? c) && (c <=? 57343).
Definition is_surrogate (c : N) : bool := (55296 <=? c) && (c <=? 57343).

(** One code unit that is not half of a surrogate pair. *)
Definition quote_unit (c : N) : jsstring :=
  if c =? 8 then [92; 98]            (* backspace: backslash b *)
  else if c =? 9 then [92; 116]      (* tab: backslash t *)
  else if c =? 10 then [92; 110]     (* line feed: backslash n *)
  else if c =? 12 then [92; 102]     (* form feed: backslash f *)
  else if c =? 13 then [92; 114]     (* carriage return: backslash r *)
  else if c =? 34 then [92; 34]      (* the quote, escaped *)
  else if c =? 92 then [92; 92]      (* the backslash, escaped *)
  else if (c <? 32) || is_surrogate c then unicode_escape c
  else [c].

Definition starts_with_low (s : jsstring) : bool :=
  match s with d :: _ => is_low_surrogate d | [] => false end.

(** [after_high] says that the unit before was a high surrogate copied as
    the first half of a pair: the unit at hand is then its low surrogate. *)
Fixpoint quote_units (after_high : bool) (s : jsstring) : jsstring :=
  match s with
  | [] => []
  | c :: s' =>
      if after_high then c :: quote_units false s'
      else if is_high_surrogate c && starts_with_low s'
           then c :: quote_units true s'
           else quote_unit c ++ quote_units false s'
  end.

Definition QuoteJSONString (s : jsstring) : jsstring :=
  34 :: quote_units false s ++ [34].

Fixpoint join_comma (parts : list jsstring) : jsstring :=
  match parts with
  | [] => []
  | [p] => p
  | p :: ps => p ++ 44 :: join_comma ps
  end.

Fixpoint JSON_stringify (v : value) : jsstring :=
  match v with
  | JNull => js "null"
  | JBool true => js "true"
  | JBool false => js "false"
  | JNumber lexeme => lexeme
  | JString s => QuoteJSONString s
  | JArray elements => 91 :: join_comma (map JSON_stringify elements) ++ [93]
  | JObject props =>
      123 :: join_comma
               (map (λ kv, match kv with
                           | (k, v') => QuoteJSONString k ++ 58 :: JSON_stringify v'
                           end) props) ++ [125]
  end.

(** *** [JSON.parse] *)

Inductive presult (A : Type) :=
| POk (a : A) (rest : jsstring)
| PSyntaxError
| POutOfFuel.
Arguments POk {A} a rest.
Arguments PSyntaxError {A}.
Arguments POutOfFuel {A}.

Definition is_json_ws (c : N) : bool :=
  (c =? 9) || (c =? 10) || (c =? 13) || (c =? 32).

Fixpoint skip_ws (s : jsstring) : jsstring :=
  match s with
  | c :: s' => if is_json_ws c then skip_ws s' else s
  | [] => []
  end.

Definition hex_value (c : N) : option N :=
  if is_digit c then Some (c - 48)
  else if (97 <=? c) && (c <=? 102) then Some (c - 87)
  else if (65 <=? c) && (c <=? 70) then Some (c - 55)
  else None.

Definition hex4 (a b c d : N) : option N :=
  match hex_value a, hex_value b, hex_value c, hex_value d with
  | Some x, Some y, Some z, Some w => Some (x * 4096 + y * 256 + z * 16 + w)
  | _, _, _, _ => None
  end.

(** The unit a two-character escape stands for. *)
Definition simple_escape (e : N) : option N :=
  if e =? 34 then Some 34
  else if e =? 92 then Some 92
  else if e =? 47 then Some 47
  else if e =? 98 then Some 8
  else if e =? 102 then Some 12
  else if e =? 110 then Some 10
  else if e =? 114 then Some 13
  else if e =? 116 then Some 9
  else None.

(** The characters of a string after its opening quote, up to and including
    the closing quote. *)
Fixpoint parse_chars (s acc : jsstring) : presult jsstring :=
  match s with
  | [] => PSyntaxError
  | c :: s1 =>
      if c =? 34 then POk acc s1
      else if c =? 92 then
        match s1 with
        | [] => PSyntaxError
        | e :: s2 =>
            if e =? 117 then
              match s2 with
              | h1 :: h2 :: h3 :: h4 :: s3 =>
                  match hex4 h1 h2 h3 h4 with
                  | Some u => parse_chars s3 (acc ++ [u])
                  | None => PSyntaxError
                  end
              | _ => PSyntaxError
              end
            else
              match simple_escape e with
              | Some u => parse_chars s2 (acc ++ [u])
              | None => PSyntaxError
              end
        end
      else if c <? 32 then PSyntaxError
      else parse_chars s1 (acc ++ [c])
  end.

Fixpoint span_digits (s : jsstring) : jsstring * jsstring :=
  match s with
  | c :: s' =>
      if is_digit c then let (ds, r) := span_digits s' in (c :: ds, r)
      else ([], s)
  | [] => ([], [])
  end.

(** A number: an optional minus sign; then a single zero, or a non-zero
    digit and any digits; then optionally a dot and one digit or more; then
    optionally [e] or [E], an optional sign and one digit or more. *)
Definition parse_sign (s : jsstring) : jsstring * jsstring :=
  match s with
  | c :: r => if c =? 45 then ([45], r) else ([], s)
  | [] => ([], [])
  end.

Definition parse_int (s : jsstring) : option (jsstring * jsstring) :=
  match s with
  | c :: r =>
      if c =? 48 then Some ([48], r)
      else if is_digit c then let (ds, r') := span_digits r in Some (c :: ds, r')
      else None
  | [] => None
  end.

Definition parse_frac (s : jsstring) : option (jsstring * jsstring) :=
  match s with
  | c :: r =>
      if c =? 46 then
        match span_digits r with
        | ([], _) => None
        | (ds, r') => Some (46 :: ds, r')
        end
      else Some ([], s)
  | [] => Some ([], [])
  end.

Definition parse_exp_sign (s : jsstring) : jsstring * jsstring :=
  match s with
  | c :: r => if (c =? 43) || (c =? 45) then ([c], r) else ([], s)
  | [] => ([], [])
  end.

Definition parse_exp (s : jsstring) : option (jsstring * jsstring) :=
  match s with
  | c :: r =>
      if (c =? 101) || (c =? 69) then
        let (sg, r1) := parse_exp_sign r in
        match span_digits r1 with
        | ([], _) => None
        | (ds, r2) => Some (c :: sg ++ ds, r2)
        end
      else Some ([], s)
  | [] => Some ([], [])
  end.

Definition parse_number (s : jsstring) : presult value :=
  let (sg, s1) := parse_sign s in
  match parse_int s1 with
  | None => PSyntaxError
  | Some (i, s2) =>
      match parse_frac s2 with
      | None => PSyntaxError
      | Some (f, s3) =>
          match parse_exp s3 with
          | None => PSyntaxError
          | Some (e, s4) => POk (JNumber (sg ++ i ++ f ++ e)) s4
          end
      end
  end.

Fixpoint strip_prefix (p s : jsstring) : option jsstring :=
  match p, s with
  | [], _ => Some s
  | a :: p', b :: s' => if a =? b then strip_prefix p' s' else None
  | _ :: _, [] => None
  end.

Definition parse_literal (s : jsstring) : presult value :=
  match strip_prefix (js "null") s with
  | Some r => POk JNull r
  | None =>
      match strip_prefix (js "true") s with
      | Some r => POk (JBool true) r
      | None =>
          match strip_prefix (js "false") s with
          | Some r => POk (JBool false) r
          | None => parse_number s
          end
      end
  end.

(** Defining a property of the object under construction: a key defined
    before keeps its place and takes the new value. *)
Fixpoint obj_set (props : list (jsstring * value)) (k : jsstring) (v : value)
  : list (jsstring * value) :=
  match props with
  | [] => [(k, v)]
  | (k', v') :: ps =>
      if decide (k' = k) then (k, v) :: ps else (k', v') :: obj_set ps k v
  end.

Fixpoint parse_value (fuel : nat) (s : jsstring) : presult value :=
  match fuel with
  | O => POutOfFuel
  | S f =>
      match skip_ws s with
      | [] => PSyntaxError
      | c :: r =>
          if c =? 123 then
            match skip_ws r with
            | [] => PSyntaxError
            | d :: r' =>
                if d =? 125 then POk (JObject []) r' else parse_members f r []
            end
          else if c =? 91 then
            match skip_ws r with
            | [] => PSyntaxError
            | d :: r' =>
                if d =? 93 then POk (JArray []) r' else parse_elements f r []
            end
          else if c =? 34 then
            match parse_chars r [] with
            | POk str r' => POk (JString str) r'
            | PSyntaxError => PSyntaxError
            | POutOfFuel => POutOfFuel
            end
          else parse_literal (c :: r)
      end
  end
with parse_elements (fuel : nat) (s : jsstring) (acc : list value)
  : presult value :=
  match fuel with
  | O => POutOfFuel
  | S f =>
      match parse_value f s with
      | POk v r =>
          match skip_ws r with
          | [] => PSyntaxError
          | c :: r' =>
              if c =? 44 then parse_elements f r' (acc ++ [v])
              else if c =? 93 then POk (JArray (acc ++ [v])) r'
              else PSyntaxError
          end
      | PSyntaxError => PSyntaxError
      | POutOfFuel => POutOfFuel
      end
  end
with parse_members (fuel : nat) (s : jsstring) (acc : list (jsstring * value))
  : presult value :=
  match fuel with
  | O => POutOfFuel
  | S f =>
      match skip_ws s with
      | [] => PSyntaxError
      | q :: r =>
          if q =? 34 then
            match parse_chars r [] with
            | POk k r1 =>
                match skip_ws r1 with
                | [] => PSyntaxError
                | c :: r2 =>
                    if c =? 58 then
                      match parse_value f r2 with
                      | POk v r3 =>
                          match skip_ws r3 with
                          | [] => PSyntaxError
                          | d :: r4 =>
                              if d =? 44 then parse_members f r4 (obj_set acc k v)
                              else if d =? 125
                                   then POk (JObject (obj_set acc k v)) r4
                                   else PSyntaxError
                          end
                      | PSyntaxError => PSyntaxError
                      | POutOfFuel => POutOfFuel
                      end
                    else PSyntaxError
                end
            | PSyntaxError => PSyntaxError
            | POutOfFuel => POutOfFuel
            end
          else PSyntaxError
      end
  end.

(** ** The browser: exceptions, storage, console *)

Inductive exn :=
| SyntaxError | QuotaExceededError | SecurityError | ReferenceError | TypeError.

Inductive completion (A : Type) :=
| Returned (a : A)
| Raised (e : exn).
Arguments Returned {A} a.
Arguments Raised {A} e.

(** [JSON.parse text]: one value, white space around it, nothing else. The
    fuel is more than the parser can use on [text] (see
    [parse_value_fuel]), so the last branch is never taken. *)
Definition JSON_parse (text : jsstring) : completion value :=
  match parse_value (2 * length text + 2) text with
  | POk v rest =>
      match skip_ws rest with
      | [] => Returned v
      | _ :: _ => Raised SyntaxError
      end
  | PSyntaxError => Raised SyntaxError
  | POutOfFuel => Raised SyntaxError
  end.

(** The storage area of [window.localStorage]. [blocked] is a storage whose
    access the browser denies (every access raises a SecurityError); a write
    that would take the stored units above [quota] raises a
    QuotaExceededError. *)
Record Storage := mkStorage {
  items : gmap jsstring jsstring;
  quota : nat;
  blocked : bool
}.

Definition storage_size (m : gmap jsstring jsstring) : nat :=
  map_fold (λ k v n, length k + length v + n)%nat 0%nat m.

Record LogEntry := mkLog { message : jsstring; error : exn }.

(** [window] is [None] where [typeof window] is ["undefined"]. *)
Record Browser := mkBrowser {
  window : option Storage;
  console : list LogEntry
}.

(** Computations that read and change the browser and may raise. *)
Definition M (A : Type) : Type := Browser → completion A * Browser.

Definition ret {A} (a : A) : M A := λ b, (Returned a, b).
Definition raise {A} (e : exn) : M A := λ b, (Raised e, b).
Definition bind {A B} (m : M A) (k : A → M B) : M B :=
  λ b, match m b with
       | (Returned a, b') => k a b'
       | (Raised e, b') => (Raised e, b')
       end.
Definition try_catch {A} (body : M A) (handler : exn → M A) : M A :=
  λ b, match body b with
       | (Returned a, b') => (Returned a, b')
       | (Raised e, b') => handler e b'
       end.
Definition lift {A} (c : completion A) : M A := λ b, (c, b).

Notation "'let*' x := m 'in' k" := (bind m (λ x, k))
  (at level 10, x name, m at level 100, k at level 200).
Notation "m ;;; k" := (bind m (λ _, k))
  (at level 100, k at level 200, right associativity).

(** [typeof window !== "undefined"] *)
Definition window_defined : M bool := λ b, (Returned (bool_decide (is_Some (window b))), b).

(** [localStorage.getItem(key)]: [None] is JavaScript's [null]. *)
Definition getItem (key : jsstring) : M (option jsstring) :=
  λ b, match window b with
       | None => (Raised ReferenceError, b)
       | Some st =>
           if blocked st then (Raised SecurityError, b)
           else (Returned (items st !! key), b)
       end.

(** [localStorage.setItem(key, v)] *)
Definition setItem (key v : jsstring) : M unit :=
  λ b, match window b with
       | None => (Raised ReferenceError, b)
       | Some st =>
           if blocked st then (Raised SecurityError, b)
           else if bool_decide (storage_size (<[key:=v]> (items st)) ≤ quota st)%nat
                then (Returned (),
                      mkBrowser (Some (mkStorage (<[key:=v]> (items st))
                                                 (quota st) (blocked st)))
                                (console b))
                else (Raised QuotaExceededError, b)
       end.

(** [console.error(message, error)] *)
Definition console_error (msg : jsstring) (e : exn) : M unit :=
  λ b, (Returned (), mkBrowser (window b) (console b ++ [mkLog msg e])).

(** ** [useLocalStorage] *)

(** The two template literals: the key stands between the quotation marks
    U+201C and U+201D, a colon follows. *)
Definition reading_message (key : jsstring) : jsstring :=
  js "Error reading localStorage key " ++ [8220] ++ key ++ [8221; 58].
Definition setting_message (key : jsstring) : jsstring :=
  js "Error setting localStorage key " ++ [8220] ++ key ++ [8221; 58].

(** [item ? JSON.parse(item) : initialValue]: [null] and the empty string
    are falsy. *)
Definition parse_or (item : option jsstring) (initialValue : value) : M value :=
  match item with
  | Some (c :: r) => lift (JSON_parse (c :: r))
  | Some [] | None => ret initialValue
  end.

(** The initialiser passed to [useState]. *)
Definition useLocalStorage_init (key : jsstring) (initialValue : value) : M value :=
  let* isClient := window_defined in
  if negb isClient then ret initialValue
  else
    try_catch
      (let* item := getItem key in parse_or item initialValue)
      (λ e, console_error (reading_message key) e ;;; ret initialValue).

(** The effect. A [value] is data, never a function, so [valueToStore] is
    [storedValue] itself. *)
Definition useLocalStorage_effect (key : jsstring) (storedValue : value) : M unit :=
  let* isClient := window_defined in
  if negb isClient then ret ()
  else
    try_catch
      (let valueToStore := storedValue in
       setItem key (JSON_stringify valueToStore))
      (λ e, console_error (setting_message key) e).

(** The state cell of the hook, and one commit: React runs the effect for
    the value just rendered; only [setStoredValue] writes the cell and the
    effect does not call it. *)
Record Hook := mkHook { storedValue : value }.

Definition useLocalStorage_commit (key : jsstring) (h : Hook) : M Hook :=
  useLocalStorage_effect key (storedValue h) ;;; ret h.

(** [setStoredValue]: the argument is a new value or a function from the
    old value to the new one. *)
Definition setStoredValue (arg : value + (value → value)) (h : Hook) : Hook :=
  match arg with
  | inl v => mkHook v
  | inr f => mkHook (f (storedValue h))
  end.

(** [Object.is] on the old and the new value of the state cell, by which
    React decides whether the state, and with it the dependency
    [storedValue] of the effect, has changed. On [null], on booleans and
    on strings it is equality. On two arrays or two objects it is the
    identity of the references, and on two numbers the identity of the
    numbers, which a [value] does not show: there the outcome is the
    parameter [identical]. Values of two kinds are never the same. *)
Definition Object_is (identical : bool) (x y : value) : bool :=
  match x with
  | JNull => match y with JNull => true | _ => false end
  | JBool a => match y with JBool b => bool_decide (a = b) | _ => false end
  | JString s => match y with JString t => bool_decide (s = t) | _ => false end
  | JNumber _ => match y with JNumber _ => identical | _ => false end
  | JArray _ => match y with JArray _ => identical | _ => false end
  | JObject _ => match y with JObject _ => identical | _ => false end
  end.

(** A call of the setter and what follows it. When the new value is the
    old one by [Object.is], the state stays and the effect, whose
    dependencies [key, storedValue, isClient] are unchanged, does not run;
    otherwise the cell takes the new value and the effect runs for it. *)
Definition useLocalStorage_set (key : jsstring) (arg : value + (value → value))
  (identical : bool) (h : Hook) : M Hook :=
  let h' := setStoredValue arg h in
  if Object_is identical (storedValue h) (storedValue h') then ret h
  else useLocalStorage_commit key h'.

(** ** The persistence of [TodoList] *)

(** A task as the object the reducer builds: the three properties in the
    order of the object literal. *)
Definition task_value (t : Task) : value :=
  JObject [(js "id", JString (id t)); (js "text", JString (text t));
           (js "completed", JBool (completed t))].

Definition tasks_value (l : list Task) : value := JArray (task_value <$> l).

(** The typed view [as Task[]] of a value; the cast checks nothing, so the
    view exists only for a value of the right shape. *)
Fixpoint obj_get (props : list (jsstring * value)) (k : jsstring) : option value :=
  match props with
  | [] => None
  | (k', v) :: ps => if decide (k' = k) then Some v else obj_get ps k
  end.

Definition as_task (v : value) : option Task :=
  match v with
  | JObject props =>
      match obj_get props (js "id"), obj_get props (js "text"),
            obj_get props (js "completed") with
      | Some (JString i), Some (JString t), Some (JBool c) => Some (mkTask i t c)
      | _, _, _ => None
      end
  | _ => None
  end.

Definition as_tasks (v : value) : option (list Task) :=
  match v with
  | JArray elements => mapM as_task elements
  | _ => None
  end.

Definition tasks_key : jsstring := js "tasks".

(** The lazy initialiser of [useReducer]. The [catch] has no binding and
    logs nothing. *)
Definition TodoList_init : M value :=
  let* isClient := window_defined in
  if isClient then
    try_catch
      (let* raw := getItem tasks_key in parse_or raw (JArray []))
      (λ _, ret (JArray []))
  else ret (JArray []).

(** The persisting effect: no [try] around the write. *)
Definition TodoList_effect (tasks : list Task) : M unit :=
  setItem tasks_key (JSON_stringify (tasks_value tasks)).

(** ** [tasksReducer], the call of the id generator included

    [randomUUID] is how the call [crypto.randomUUID()] completes where the
    reducer runs: it returns a string, or it raises (a TypeError where
    [crypto.randomUUID] is not a function, as outside a secure context).
    The call is made in the [ADD] branch only, before the list is built;
    the other branches complete whatever the generator would do. *)
Definition tasksReducer_call (randomUUID : completion jsstring)
    (state : list Task) (action : Action) : completion (list Task) :=
  match action with
  | ADD text =>
      match randomUUID with
      | Returned uuid => Returned (state ++ [mkTask uuid text false])
      | Raised e => Raised e
      end
  | TOGGLE i =>
      Returned
        ((λ t, if decide (id t = i)
               then mkTask (id t) (text t) (negb (completed t)) else t) <$> state)
  | DELETE i => Returned (filter (λ t, id t ≠ i) state)
  | CLEAR_COMPLETED => Returned (filter (λ t, negb (completed t) = true) state)
  | OTHER _ => Returned state
  end.

(** ** The vocabulary of the specification *)

(** [kept P l l']: [l'] is the subsequence of [l] made of exactly the tasks
    that satisfy [P], in the order of [l]. *)
Inductive kept (P : Task → Prop) : list Task → list Task → Prop :=
| kept_nil : kept P [] []
| kept_take t l l' : P t → kept P l l' → kept P (t :: l) (t :: l')
| kept_skip t l l' : ¬ P t → kept P l l' → kept P (t :: l) l'.

(** What Toggle of [i] makes of one task: the flag negated when the id is
    [i], the task itself otherwise. *)
Definition toggled (i : jsstring) (t t' : Task) : Prop :=
  id t' = id t ∧ text t' = text t ∧
  completed t' = (if decide (id t = i) then negb (completed t) else completed t).

(** The number of tasks of [l] whose id is [i]. *)
Definition occurrences (i : jsstring) (l : list Task) : nat :=
  length (filter (λ t, id t = i) l).

(** A text is valid for Add when something is left of it after trimming. *)
Definition valid_text (t : jsstring) : Prop := trim t ≠ [].

(** The Add property with the id generator's result [uuid] made explicit. *)
Definition add_property (uuid : jsstring) (l : list Task) (t : jsstring) : Prop :=
  let l' := tasksReducer uuid l (ADD t) in
  length l' = S (length l) ∧ take (length l) l' = l ∧
  ∃ x, last l' = Some x ∧ completed x = false ∧ text x = t ∧ id x ∉ ids l.

(** The Delete property, lengths as the specification counts them. *)
Definition delete_property (uuid : jsstring) (l : list Task) (i : jsstring) : Prop :=
  let l' := tasksReducer uuid l (DELETE i) in
  (i ∈ ids l → length l' = (length l - 1)%nat) ∧
  (i ∉ ids l → l' = l) ∧
  i ∉ ids l'.

(** Determinism over two applications: each makes its own call of the id
    generator. *)
Definition deterministic (l : list Task) (a : Action) : Prop :=
  ∀ uuid1 uuid2, tasksReducer uuid1 l a = tasksReducer uuid2 l a.

(** Totality as the specification words it: a result, not a failure,
    however the id generator completes. *)
Definition always_returns (l : list Task) (a : Action) : Prop :=
  ∀ randomUUID, ∃ l', tasksReducer_call randomUUID l a = Returned l'.

Definition wf_task (t : Task) : Prop := wf_string (id t) ∧ wf_string (text t).

(** What the fuel argument needs of a result of the parser on [s]: fuel was
    left, and a value parsed took at least one unit of [s]. *)
Definition progress (res : presult value) (s : jsstring) : Prop :=
  res ≠ POutOfFuel ∧ ∀ v r, res = POk v r → (length r < length s)%nat.

(** The browser takes the write of [v] under [key]: there is a window, its
    storage is not blocked and has room. *)
Definition accepts (b : Browser) (key v : jsstring) : Prop :=
  ∃ st, window b = Some st ∧ blocked st = false ∧
        (storage_size (<[key:=v]> (items st)) ≤ quota st)%nat.

(** The browser after that write. *)
Definition written (b : Browser) (key v : jsstring) : Browser :=
  match window b with
  | Some st =>
      mkBrowser (Some (mkStorage (<[key:=v]> (items st)) (quota st) (blocked st)))
                (console b)
  | None => b
  end.

(** The load property as the specification words it: the initial value
    comes back, not raised, and one entry more is on the console. *)
Definition fallback_logged (key : jsstring) (v : value) (b : Browser) : Prop :=
  ∃ entry, useLocalStorage_init key v b
           = (Returned v, mkBrowser (window b) (console b ++ [entry])).

(** ** Concrete data for the examples *)

Definition some_uuid : jsstring := js "123e4567-e89b-42d3-a456-426614174000".
Definition other_uuid : jsstring := js "9f1c2d3e-0a4b-4c5d-8e6f-1a2b3c4d5e6f".
Definition milk : jsstring := js "Buy milk".
Definition bread : jsstring := js "Buy bread".

Definition empty_browser : Browser := mkBrowser (Some (mkStorage ∅ 5000 false)) [].
Definition server : Browser := mkBrowser None [].
Definition full_browser : Browser := mkBrowser (Some (mkStorage ∅ 0 false)) [].
Definition corrupt_browser : Browser :=
  mkBrowser (Some (mkStorage {[ tasks_key := js "not json" ]} 5000 false)) [].
Definition two_tasks : list Task :=
  [mkTask other_uuid bread true; mkTask some_uuid milk false].

(** ** The view and the handlers of [TodoList] *)

(** The three values of the [filter] state. *)
Inductive Filter := FilterAll | FilterActive | FilterCompleted.

(** The callback of [tasks.filter] in the computation of [filteredTasks]. *)
Definition shows (filter_ : Filter) (t : Task) : bool :=
  match filter_ with
  | FilterActive => negb (completed t)
  | FilterCompleted => completed t
  | FilterAll => true
  end.

Definition filteredTasks (filter_ : Filter) (tasks : list Task) : list Task :=
  filter (λ t, shows filter_ t = true) tasks.

Definition remainingCount (tasks : list Task) : nat :=
  length (filter (λ t, negb (completed t) = true) tasks).

(** [tasks.some((t) => t.completed)]: the condition under which the
    Clear Completed button is rendered. *)
Definition clear_button_shown (tasks : list Task) : bool :=
  existsb completed tasks.

(** The paragraph rendered in place of the rows when [filteredTasks] is
    empty. *)
Definition empty_message (filter_ : Filter) : jsstring :=
  match filter_ with
  | FilterCompleted => js "No completed tasks."
  | FilterActive => js "No active tasks."
  | FilterAll => js "No tasks yet. Add one!"
  end.

Definition rendered_message (filter_ : Filter) (tasks : list Task)
  : option jsstring :=
  match filteredTasks filter_ tasks with
  | [] => Some (empty_message filter_)
  | _ :: _ => None
  end.

(** The handlers other than [handleAddTask]. Toggle, Delete and
    ClearCompleted do not reach the id generator: the reducer is given the
    empty string in its place. *)
Definition handleInputChange (value : jsstring) (f : Form) : Form :=
  mkForm (tasks f) value.

Definition handleToggle (i : jsstring) (f : Form) : Form :=
  mkForm (tasksReducer [] (tasks f) (TOGGLE i)) (newTaskText f).

Definition handleDelete (i : jsstring) (f : Form) : Form :=
  mkForm (tasksReducer [] (tasks f) (DELETE i)) (newTaskText f).

Definition handleClearCompleted (f : Form) : Form :=
  mkForm (tasksReducer [] (tasks f) CLEAR_COMPLETED) (newTaskText f).

(** What the user does to the component. [Submit uuid] is the submission
    of the form at a moment when the id generator would return [uuid]. *)
Inductive Event :=
| Type_ (value : jsstring)
| Submit (uuid : jsstring)
| ClickToggle (i : jsstring)
| ClickDelete (i : jsstring)
| ClickClearCompleted.

Definition handle (e : Event) (f : Form) : Form :=
  match e with
  | Type_ value => handleInputChange value f
  | Submit uuid => handleAddTask uuid f
  | ClickToggle i => handleToggle i f
  | ClickDelete i => handleDelete i f
  | ClickClearCompleted => handleClearCompleted f
  end.

Definition run (es : list Event) (f : Form) : Form :=
  foldl (λ f e, handle e f) f es.

(** The texts the form may hold: something is left, and no white space at
    either end. *)
Definition blank (s : jsstring) : Prop := Forall (λ c, is_white_space c = true) s.

Definition starts_with_space (s : jsstring) : bool :=
  match s with c :: _ => is_white_space c | [] => false end.

Definition trimmed (s : jsstring) : Prop :=
  s ≠ [] ∧ starts_with_space s = false ∧ starts_with_space (reverse s) = false.

Definition texts_trimmed (f : Form) : Prop :=
  Forall (λ t, trimmed (text t)) (tasks f).

(** A key that is a canonical numeric string: digits only, and no leading
    zero except in the string [0] itself. Every array index is one.
    JavaScript enumerates such properties first and in numeric order,
    whatever the order of their creation. *)
Definition integer_like (k : jsstring) : bool :=
  match k with
  | [] => false
  | c :: r => forallb is_digit k && (negb (c =? 48) || bool_decide (r = []))
  end.

(** The values the round trip through storage is proved for: built from
    [null], booleans, strings of 16-bit units, arrays, and objects whose
    keys are such strings, pairwise distinct and not integer-like (so that
    the properties are enumerated in the order of the list). Numbers are
    left out. *)
Fixpoint storable (v : value) : Prop :=
  match v with
  | JNull | JBool _ => True
  | JNumber _ => False
  | JString s => wf_string s
  | JArray elements => foldr (λ e rest, storable e ∧ rest) True elements
  | JObject props =>
      foldr (λ kv rest,
               match kv with
               | (k, v') =>
                   ((wf_string k ∧ integer_like k = false) ∧ storable v') ∧ rest
               end) True props
      ∧ NoDup (props.*1)
  end.

(** Fuel that is enough for the parser to read a value back. *)
Fixpoint cost (v : value) : nat :=
  match v with
  | JArray elements => S (foldr (λ e rest, S (cost e) + rest)%nat 0%nat elements)
  | JObject props =>
      S (foldr (λ kv rest, match kv with
                           | (_, v') => (S (cost v') + rest)%nat
                           end) 0%nat props)
  | _ => 1%nat
  end.

(** With fuel from [cost v] on, the parser reads the text of [v] back,
    whatever follows it. *)
Definition reads_back (v : value) : Prop :=
  ∀ f r, (cost v ≤ f)%nat → parse_value f (JSON_stringify v ++ r) = POk v r.

(** The text of one member of an object. *)
Definition member_string (kv : jsstring * value) : jsstring :=
  match kv with
  | (k, v') => QuoteJSONString k ++ 58 :: JSON_stringify v'
  end.

(** Two browsers that answer [getItem key] alike. *)
Definition same_at (key : jsstring) (b b' : Browser) : Prop :=
  match window b, window b' with
  | Some st, Some st' => blocked st = blocked st' ∧ items st !! key = items st' !! key
  | None, None => True
  | _, _ => False
  end.

(** What a write under [key] may change of a browser: the item under
    [key], and the console, by adding to it. *)
Definition wrote_only (key : jsstring) (b b' : Browser) : Prop :=
  console b `prefix_of` console b' ∧
  match window b, window b' with
  | Some st, Some st' =>
      quota st' = quota st ∧ blocked st' = blocked st ∧
      ∀ k, k ≠ key → items st' !! k = items st !! k
  | None, None => True
  | _, _ => False
  end.

(** ** [Navbar]

    [mainNavLinks] of [@/app/data/navigation] is a parameter: a list of
    records with a [name] and a [url]. *)
Record LinkData := mkLinkData { name : jsstring; url : jsstring }.
Record NavLink := mkNavLink { href : jsstring; label : jsstring }.

Definition NAV_LINKS (mainNavLinks : list LinkData) : list NavLink :=
  (λ link, mkNavLink (url link) (name link)) <$> mainNavLinks.

(** [pathname === href] *)
Definition isActive (pathname : jsstring) (l : NavLink) : bool :=
  bool_decide (pathname = href l).

(** The state of the component, without [isScrolled]. *)
Record Navbar := mkNavbar {
  pathname : jsstring;
  isOpen : bool;
  isMobile : bool
}.

Definition toggleMenu (n : Navbar) : Navbar :=
  mkNavbar (pathname n) (negb (isOpen n)) (isMobile n).

(** [setIsMobile(window.innerWidth < 768)] *)
Definition checkScreenSize (innerWidth : Z) (n : Navbar) : Navbar :=
  mkNavbar (pathname n) (isOpen n) (bool_decide (innerWidth < 768)%Z).

(** The router gives a path; the effect with dependency [pathname] runs,
    and closes the menu, when the path is not the one before. *)
Definition navigate (p : jsstring) (n : Navbar) : Navbar :=
  if decide (p = pathname n) then n else mkNavbar p false (isMobile n).

(** [isOpen && isMobile], the [isOpen] property of [MobileMenu]. *)
Definition mobile_menu_open (n : Navbar) : bool := isOpen n && isMobile n.

Inductive NavEvent :=
| ClickHamburger
| ScreenChecked (innerWidth : Z)
| RouteChanged (p : jsstring).

Definition nav_handle (e : NavEvent) (n : Navbar) : Navbar :=
  match e with
  | ClickHamburger => toggleMenu n
  | ScreenChecked w => checkScreenSize w n
  | RouteChanged p => navigate p n
  end.

Definition nav_run (es : list NavEvent) (n : Navbar) : Navbar :=
  foldl (λ n e, nav_handle e n) n es.

(** * Properties of the reducer *)

Section Reducer.
Implicit Types (l : list Task) (i uuid : jsstring) (t : Task).

Lemma kept_filter (P : Task → Prop) `{!∀ t, Decision (P t)} l :
  kept P l (filter P l).
Proof.
  induction l as [|t l IH]; [constructor|].
  destruct (decide (P t)) as [Ht|Ht].
  - rewrite filter_cons_True by done. by constructor.
  - rewrite filter_cons_False by done. by constructor.
Qed.

Lemma kept_unique (P : Task → Prop) l l1 l2 :
  kept P l l1 → kept P l l2 → l1 = l2.
Proof.
  intros H1. revert l2.
  induction H1 as [|t l l1 Ht _ IH|t l l1 Ht _ IH]; intros l2 H2;
    inversion H2; subst; try done.
  - f_equal. by apply IH.
  - by apply IH.
Qed.

Lemma kept_iff_filter (P : Task → Prop) `{!∀ t, Decision (P t)} l l' :
  kept P l l' ↔ l' = filter P l.
Proof.
  split.
  - intros Hk. eapply kept_unique; [done|apply kept_filter].
  - intros ->. apply kept_filter.
Qed.

Lemma toggle_length uuid l i :
  length (tasksReducer uuid l (TOGGLE i)) = length l.
Proof. simpl. by rewrite length_fmap. Qed.

Lemma toggle_Forall2 uuid l i :
  Forall2 (toggled i) l (tasksReducer uuid l (TOGGLE i)).
Proof.
  simpl. induction l as [|t l IH]; [constructor|].
  rewrite fmap_cons. constructor; [|done].
  unfold toggled. destruct (decide (id t = i)); simpl; done.
Qed.

Lemma toggle_ids uuid l i : ids (tasksReducer uuid l (TOGGLE i)) = ids l.
Proof.
  unfold ids. simpl. rewrite <-list_fmap_compose. apply list_fmap_ext.
  intros k t _. simpl. by destruct (decide (id t = i)).
Qed.

Lemma toggle_twice uuid uuid' l i :
  tasksReducer uuid' (tasksReducer uuid l (TOGGLE i)) (TOGGLE i) = l.
Proof.
  simpl. rewrite <-list_fmap_compose.
  rewrite <-(list_fmap_id l) at 2. apply list_fmap_ext.
  intros k [ti tt tc] _. simpl.
  destruct (decide (ti = i)) as [->|Hne]; simpl.
  - rewrite decide_True by done. simpl. by rewrite negb_involutive.
  - by rewrite decide_False.
Qed.

Lemma delete_ids uuid l i :
  ids (tasksReducer uuid l (DELETE i)) = filter (λ j, j ≠ i) (ids l).
Proof.
  unfold ids. simpl. induction l as [|t l IH]; [done|].
  rewrite fmap_cons. destruct (decide (id t = i)) as [He|Hne].
  - rewrite !filter_cons_False by naive_solver. done.
  - rewrite !filter_cons_True by done. rewrite fmap_cons. by f_equal.
Qed.

Lemma delete_absent uuid l i : i ∉ ids (tasksReducer uuid l (DELETE i)).
Proof. rewrite delete_ids, list_elem_of_filter. intros [Hne _]. by apply Hne. Qed.

Lemma delete_length uuid l i :
  (length (tasksReducer uuid l (DELETE i)) + occurrences i l = length l)%nat.
Proof.
  unfold occurrences. simpl. induction l as [|t l IH]; [done|].
  destruct (decide (id t = i)) as [He|Hne].
  - rewrite filter_cons_False by naive_solver.
    rewrite filter_cons_True by done. simpl. lia.
  - rewrite filter_cons_True by done.
    rewrite filter_cons_False by done. simpl. lia.
Qed.

Lemma delete_unchanged uuid l i :
  i ∉ ids l → tasksReducer uuid l (DELETE i) = l.
Proof.
  intros Hni. simpl. induction l as [|t l IH]; [done|].
  unfold ids in Hni. rewrite fmap_cons, not_elem_of_cons in Hni.
  destruct Hni as [Hne Hni].
  rewrite filter_cons_True by done. f_equal. by apply IH.
Qed.

Lemma occurrences_absent l i : i ∉ ids l → occurrences i l = 0%nat.
Proof.
  intros Hni. unfold occurrences. induction l as [|t l IH]; [done|].
  unfold ids in Hni. rewrite fmap_cons, not_elem_of_cons in Hni.
  destruct Hni as [Hne Hni].
  rewrite filter_cons_False by done. by apply IH.
Qed.

Lemma occurrences_present l i : i ∈ ids l → (1 ≤ occurrences i l)%nat.
Proof.
  unfold occurrences. induction l as [|t l IH].
  - by intros ?%elem_of_nil.
  - unfold ids. rewrite fmap_cons, elem_of_cons. intros Hin.
    destruct (decide (id t = i)) as [He|Hne].
    + rewrite filter_cons_True by done. simpl. lia.
    + rewrite filter_cons_False by done. apply IH.
      destruct Hin as [Hin|Hin]; [congruence|done].
Qed.

Lemma occurrences_NoDup l i : NoDup (ids l) → (occurrences i l ≤ 1)%nat.
Proof.
  unfold occurrences. induction l as [|t l IH]; [simpl; lia|].
  unfold ids. rewrite fmap_cons, NoDup_cons. intros [Hni Hnd].
  destruct (decide (id t = i)) as [He|Hne].
  - rewrite filter_cons_True by done. simpl. subst i.
    apply occurrences_absent in Hni. unfold occurrences in Hni. lia.
  - rewrite filter_cons_False by done. by apply IH.
Qed.

End Reducer.

(** ** Add *)

Lemma add_shape uuid (l : list Task) (t : jsstring) :
  let l' := tasksReducer uuid l (ADD t) in
  length l' = S (length l) ∧ take (length l) l' = l ∧
  last l' = Some (mkTask uuid t false).
Proof.
  simpl. split_and!.
  - rewrite length_app. simpl. lia.
  - by rewrite take_app_length.
  - by rewrite last_snoc.
Qed.

(** C1, as amended: for every task list, every text that is non-empty after
    trimming and every result [uuid] of the id generator that is not an id
    of the list, Add yields the list followed by one task; that task is not
    completed, has the given text and has [uuid] as its id, which is not
    present in the list. *)
Theorem add_appends_fresh_task uuid (l : list Task) (t : jsstring) :
  valid_text t → uuid ∉ ids l →
  add_property uuid l t ∧ last (tasksReducer uuid l (ADD t)) = Some (mkTask uuid t false).
Proof.
  intros _ Hfresh. destruct (add_shape uuid l t) as (Hlen & Htake & Hlast).
  split; [|done]. unfold add_property. split_and!; [done..|].
  exists (mkTask uuid t false). by split_and!.
Qed.

Lemma add_appends_fresh_task_witness :
  add_property some_uuid [mkTask other_uuid bread true] milk ∧
  last (tasksReducer some_uuid [mkTask other_uuid bread true] (ADD milk))
  = Some (mkTask some_uuid milk false).
Proof.
  apply (add_appends_fresh_task some_uuid [mkTask other_uuid bread true] milk).
  - unfold valid_text. vm_compute. discriminate.
  - unfold ids. simpl. rewrite list_elem_of_singleton. vm_compute. discriminate.
Defined.

(** C1, as stated, fails: the reducer appends whatever the id generator
    returns. When that is the id of a task of the list (both strings have
    the shape of a version 4 UUID), the id of the new task is present in
    the list. *)
Lemma add_id_collision :
  valid_text milk ∧ is_uuid_v4 some_uuid = true ∧
  ¬ add_property some_uuid [mkTask some_uuid bread false] milk.
Proof.
  split_and!.
  - unfold valid_text. vm_compute. discriminate.
  - by vm_compute.
  - unfold add_property. simpl. intros (_ & _ & x & Hlast & _ & _ & Hid).
    injection Hlast as <-. apply Hid. simpl. unfold ids. simpl. apply list_elem_of_here.
Qed.

(** The submit handler dispatches Add with the trimmed text exactly when
    that text is non-empty, and then empties the field. *)
Lemma handleAddTask_dispatches uuid (f : Form) :
  (trim (newTaskText f) = [] ∧ handleAddTask uuid f = f) ∨
  (trim (newTaskText f) ≠ [] ∧
   handleAddTask uuid f
   = mkForm (tasksReducer uuid (tasks f) (ADD (trim (newTaskText f)))) []).
Proof.
  unfold handleAddTask. destruct (trim (newTaskText f)) as [|c r] eqn:E; simpl.
  - left. by split.
  - right. by split.
Qed.

(** ** Toggle *)

(** C2: for every task list and every id present in it, Toggle keeps the
    length and the order of the list: position by position the task keeps
    its id and its text, and its completed flag is negated when its id is
    the given one and kept otherwise; some task has the given id and its
    flag negated; and Toggle applied twice with the same id gives the
    original list back. *)
Theorem toggle_flips_only_matching uuid uuid' (l : list Task) (i : jsstring) :
  i ∈ ids l →
  let l' := tasksReducer uuid l (TOGGLE i) in
  length l' = length l ∧
  ids l' = ids l ∧
  (∀ k t, l !! k = Some t → ∃ t', l' !! k = Some t' ∧ toggled i t t') ∧
  (∃ k t t', l !! k = Some t ∧ l' !! k = Some t' ∧ id t = i ∧
             id t' = i ∧ text t' = text t ∧ completed t' = negb (completed t)) ∧
  tasksReducer uuid' l' (TOGGLE i) = l.
Proof.
  intros Hin l'. pose proof (toggle_Forall2 uuid l i) as HF. fold l' in HF.
  split_and!.
  - apply toggle_length.
  - apply toggle_ids.
  - intros k t Hk. destruct (Forall2_lookup_l _ _ _ _ _ HF Hk) as (t' & Hk' & Ht).
    by exists t'.
  - unfold ids in Hin. apply list_elem_of_fmap in Hin as (t & -> & Ht).
    apply list_elem_of_lookup in Ht as [k Hk].
    destruct (Forall2_lookup_l _ _ _ _ _ HF Hk) as (t' & Hk' & Hid & Htext & Hc).
    rewrite decide_True in Hc by done.
    exists k, t, t'. by split_and!.
  - apply toggle_twice.
Qed.

Lemma toggle_flips_only_matching_witness :
  let l := [mkTask other_uuid bread true; mkTask some_uuid milk false] in
  let l' := tasksReducer [] l (TOGGLE some_uuid) in
  length l' = length l ∧
  ids l' = ids l ∧
  (∀ k t, l !! k = Some t → ∃ t', l' !! k = Some t' ∧ toggled some_uuid t t') ∧
  (∃ k t t', l !! k = Some t ∧ l' !! k = Some t' ∧ id t = some_uuid ∧
             id t' = some_uuid ∧ text t' = text t ∧
             completed t' = negb (completed t)) ∧
  tasksReducer [] l' (TOGGLE some_uuid) = l.
Proof.
  intros l.
  apply (toggle_flips_only_matching [] [] l some_uuid).
  unfold ids. simpl. apply list_elem_of_further, list_elem_of_here.
Defined.

(** ** Delete *)

(** C3, as amended: Delete of [i] shortens the list by the number of tasks
    whose id is [i]: by one when the ids of the list are pairwise distinct
    and [i] is one of them, by nothing (the list is returned unchanged) when
    no task has id [i]; the resulting list contains no task with id [i]. *)
Theorem delete_removes_every_match uuid (l : list Task) (i : jsstring) :
  let l' := tasksReducer uuid l (DELETE i) in
  length l' = (length l - occurrences i l)%nat ∧
  (NoDup (ids l) → i ∈ ids l → length l' = (length l - 1)%nat) ∧
  (i ∉ ids l → l' = l) ∧
  i ∉ ids l'.
Proof.
  intros l'. pose proof (delete_length uuid l i) as Hlen. fold l' in Hlen.
  split_and!.
  - lia.
  - intros Hnd Hin. apply occurrences_present in Hin.
    apply (occurrences_NoDup _ i) in Hnd. lia.
  - apply delete_unchanged.
  - apply delete_absent.
Qed.

(** C3, as stated, fails on a list in which two tasks have the id: both are
    removed and the list is shorter by two. *)
Lemma delete_two_matches :
  ¬ (delete_property []
       [mkTask some_uuid milk false; mkTask some_uuid bread true] some_uuid).
Proof.
  unfold delete_property. intros (Hlen & _ & _).
  assert (Hin : some_uuid ∈ ids [mkTask some_uuid milk false; mkTask some_uuid bread true]).
  { unfold ids. simpl. apply list_elem_of_here. }
  specialize (Hlen Hin). vm_compute in Hlen. discriminate.
Qed.

(** ** ClearCompleted *)

(** C4: the result of ClearCompleted is the subsequence of the list made of
    exactly the tasks that are not completed, in the order of the list, and
    it is the only such list. *)
Theorem clear_completed_keeps_active uuid (l : list Task) :
  kept (λ t, completed t = false) l (tasksReducer uuid l CLEAR_COMPLETED) ∧
  ∀ l', kept (λ t, completed t = false) l l' → l' = tasksReducer uuid l CLEAR_COMPLETED.
Proof.
  assert (Hk : kept (λ t, completed t = false) l (tasksReducer uuid l CLEAR_COMPLETED)).
  { simpl. induction l as [|t l IH]; [constructor|].
    destruct (completed t) eqn:Hc.
    - rewrite filter_cons_False by (rewrite Hc; simpl; congruence).
      apply kept_skip; [congruence|done].
    - rewrite filter_cons_True by (by rewrite Hc).
      by apply kept_take. }
  split; [done|]. intros l' Hl'. by eapply kept_unique.
Qed.

(** ** Delete and Toggle on lists with repeated ids *)

(** C10: on every task list, with repeated ids or not, the result of
    Delete of [i] is the subsequence of exactly the tasks whose id differs
    from [i], in the order of the list (so no task with id [i] is left),
    and Toggle of [i] negates the completed flag of every task whose id is
    [i] and changes nothing else. *)
Theorem delete_toggle_act_on_every_match uuid (l : list Task) (i : jsstring) :
  kept (λ t, id t ≠ i) l (tasksReducer uuid l (DELETE i)) ∧
  (∀ l', kept (λ t, id t ≠ i) l l' → l' = tasksReducer uuid l (DELETE i)) ∧
  (i ∉ ids (tasksReducer uuid l (DELETE i))) ∧
  Forall2 (toggled i) l (tasksReducer uuid l (TOGGLE i)).
Proof.
  split_and!.
  - apply kept_filter.
  - intros l' Hl'. by apply (kept_iff_filter (λ t, id t ≠ i)).
  - apply delete_absent.
  - apply toggle_Forall2.
Qed.

(** ** The scenario of the specification *)

(** From the empty list: Add of [Buy milk], Toggle of the new id, then
    ClearCompleted. *)
Example buy_milk_scenario :
  let l1 := tasksReducer some_uuid [] (ADD milk) in
  let l2 := tasksReducer other_uuid l1 (TOGGLE some_uuid) in
  l1 = [mkTask some_uuid milk false] ∧
  l2 = [mkTask some_uuid milk true] ∧
  tasksReducer other_uuid l2 CLEAR_COMPLETED = [].
Proof. by vm_compute. Qed.

(** ** Totality and determinism *)

Lemma tasksReducer_call_returned uuid (l : list Task) (a : Action) :
  tasksReducer_call (Returned uuid) l a = Returned (tasksReducer uuid l a).
Proof. by destruct a. Qed.

Lemma tasksReducer_call_without_generator g (l : list Task) (a : Action) :
  (∀ t, a ≠ ADD t) → tasksReducer_call g l a = Returned (tasksReducer [] l a).
Proof. intros Ha. destruct a as [t|i|i| |kind]; try done. by destruct (Ha t). Qed.

(** C5, as amended: for Toggle, Delete, ClearCompleted and every unknown
    kind of action the reducer returns a list, without failing and whatever
    the id generator would do, and two applications to the same list and
    the same action return the same list; an unknown kind returns the list
    unchanged. For Add the reducer returns a list exactly when the id
    generator returns a string, and raises what the generator raises; two
    applications of Add to the same list and text complete alike exactly
    when the generator completes alike in both. Where the generator
    returns, the result is the list computed from its string. *)
Theorem reducer_total_and_deterministic
    (g1 g2 : completion jsstring) (l : list Task) (a : Action) :
  match a with
  | ADD t =>
      (∀ l', tasksReducer_call g1 l a = Returned l'
             ↔ ∃ u, g1 = Returned u ∧ l' = l ++ [mkTask u t false]) ∧
      (∀ e, tasksReducer_call g1 l a = Raised e ↔ g1 = Raised e) ∧
      (tasksReducer_call g1 l a = tasksReducer_call g2 l a ↔ g1 = g2)
  | _ =>
      ∃ l', tasksReducer_call g1 l a = Returned l' ∧
            tasksReducer_call g2 l a = Returned l'
  end ∧
  (∀ kind, tasksReducer_call g1 l (OTHER kind) = Returned l) ∧
  (∀ u, tasksReducer_call (Returned u) l a = Returned (tasksReducer u l a)).
Proof.
  split_and!.
  - destruct a as [t|i|i| |kind]; try (eexists; split; reflexivity).
    split_and!.
    + intros l'. simpl. destruct g1 as [u|e]; split.
      * intros [= <-]. by exists u.
      * by intros (u' & [= <-] & ->).
      * done.
      * by intros (u' & ? & _).
    + intros e. simpl. destruct g1 as [u|e']; split; try done.
      * by intros [= ->].
      * by intros [= ->].
    + simpl. destruct g1 as [u1|e1], g2 as [u2|e2]; split; try done.
      * intros [= H]. apply app_inv_head in H. by injection H as ->.
      * by intros [= ->].
      * by intros [= ->].
      * by intros [= ->].
  - done.
  - intros u. apply tasksReducer_call_returned.
Qed.

(** C5, as stated, fails for Add, in both of its parts. The reducer calls
    the id generator: where the call raises, the reducer raises and returns
    no list; and two applications in which the generator returns two
    different strings give two different lists. *)
Lemma add_can_raise_and_differ :
  is_uuid_v4 some_uuid = true ∧ is_uuid_v4 other_uuid = true ∧
  ¬ deterministic [] (ADD milk) ∧
  ¬ always_returns [] (ADD milk) ∧
  tasksReducer_call (Raised TypeError) [] (ADD milk) = Raised TypeError.
Proof.
  split_and!; [by vm_compute..| | |done].
  - intros H. specialize (H some_uuid other_uuid). simpl in H.
    vm_compute in H. discriminate.
  - intros H. destruct (H (Raised TypeError)) as [l' Hl']. discriminate.
Qed.

(** ** Unique ids *)

Lemma ids_sublist (l l' : list Task) : sublist l' l → sublist (ids l') (ids l).
Proof. intros Hs. unfold ids. by apply fmap_sublist. Qed.

(** C6: when no two tasks of the list share an id, and, for Add, the id
    generator returns a string that is not an id of the list, no two tasks
    of the list after the transition share an id; Add leaves the tasks of
    the list as they are and appends one, Toggle leaves every id in place,
    Delete and ClearCompleted leave a subsequence of the very same tasks. *)
Theorem unique_ids_invariant uuid (l : list Task) (a : Action) :
  NoDup (ids l) →
  (∀ t, a = ADD t → uuid ∉ ids l) →
  let l' := tasksReducer uuid l a in
  NoDup (ids l') ∧
  match a with
  | ADD t => l' = l ++ [mkTask uuid t false]
  | TOGGLE _ => ids l' = ids l
  | DELETE _ | CLEAR_COMPLETED => sublist l' l
  | OTHER _ => l' = l
  end.
Proof.
  intros Hnd Hfresh l'. subst l'.
  destruct a as [t|i|i| |kind].
  - split; [|done]. simpl. unfold ids. rewrite fmap_app. simpl.
    apply NoDup_app. split_and!; [done| |apply NoDup_singleton].
    intros j Hj ->%list_elem_of_singleton. by apply (Hfresh t).
  - split; [|apply toggle_ids]. by rewrite toggle_ids.
  - assert (Hs : sublist (tasksReducer uuid l (DELETE i)) l) by apply sublist_filter.
    split; [|done]. eapply sublist_NoDup; [done|by apply ids_sublist].
  - assert (Hs : sublist (tasksReducer uuid l CLEAR_COMPLETED) l) by apply sublist_filter.
    split; [|done]. eapply sublist_NoDup; [done|by apply ids_sublist].
  - by split.
Qed.

Lemma unique_ids_invariant_witness :
  let l := [mkTask other_uuid bread true] in
  let l' := tasksReducer some_uuid l (ADD milk) in
  NoDup (ids l') ∧ l' = l ++ [mkTask some_uuid milk false].
Proof.
  intros l.
  apply (unique_ids_invariant some_uuid l (ADD milk)).
  - unfold ids. simpl. apply NoDup_singleton.
  - intros t _. unfold ids. simpl. rewrite list_elem_of_singleton.
    vm_compute. discriminate.
Defined.

(** * [JSON.parse] uses less fuel than it is given *)

Section Fuel.
Implicit Types (s r acc : jsstring) (f : nat).

Lemma skip_ws_length s : (length (skip_ws s) ≤ length s)%nat.
Proof.
  induction s as [|c s IH]; simpl; [lia|].
  destruct (is_json_ws c); simpl; lia.
Qed.

Lemma skip_ws_cons s c r :
  skip_ws s = c :: r → (length r < length s)%nat.
Proof. intros E. pose proof (skip_ws_length s) as H. rewrite E in H. simpl in H. lia. Qed.

Lemma parse_chars_progress s acc :
  parse_chars s acc ≠ POutOfFuel ∧
  ∀ a r, parse_chars s acc = POk a r → (length r < length s)%nat.
Proof.
  remember (length s) as n eqn:Hn. revert s acc Hn.
  induction n as [n IH] using lt_wf_ind. intros s acc ->.
  destruct s as [|c s1]; simpl; [done|].
  destruct (c =? 34); [split; [done|]; intros a r [= _ <-]; lia|].
  destruct (c =? 92).
  - destruct s1 as [|e s2]; [done|].
    destruct (e =? 117).
    + destruct s2 as [|h1 [|h2 [|h3 [|h4 s3]]]]; try done.
      destruct (hex4 h1 h2 h3 h4); [|done].
      destruct (IH (length s3) ltac:(simpl; lia) s3 (acc ++ [n]) eq_refl) as [H1 H2].
      split; [done|]. intros a r E. apply H2 in E. simpl. lia.
    + destruct (simple_escape e) as [u|]; [|done].
      destruct (IH (length s2) ltac:(simpl; lia) s2 (acc ++ [u]) eq_refl) as [H1 H2].
      split; [done|]. intros a r E. apply H2 in E. simpl. lia.
  - destruct (c <? 32); [done|].
    destruct (IH (length s1) ltac:(simpl; lia) s1 (acc ++ [c]) eq_refl) as [H1 H2].
    split; [done|]. intros a r E. apply H2 in E. lia.
Qed.

Lemma span_digits_length s ds r :
  span_digits s = (ds, r) → (length r ≤ length s)%nat.
Proof.
  revert ds r. induction s as [|c s IH]; intros ds r; simpl.
  - intros [= _ <-]. done.
  - destruct (is_digit c).
    + destruct (span_digits s) as [ds' r'] eqn:E. intros [= _ <-].
      specialize (IH _ _ eq_refl). lia.
    + intros [= _ <-]. simpl. lia.
Qed.

Lemma parse_number_progress s :
  parse_number s ≠ POutOfFuel ∧
  ∀ v r, parse_number s = POk v r → (length r < length s)%nat.
Proof.
  unfold parse_number.
  destruct (parse_sign s) as [sg s1] eqn:Esg.
  assert (H1 : (length s1 ≤ length s)%nat).
  { unfold parse_sign in Esg. destruct s as [|c r0]; [by injection Esg as _ <-|].
    destruct (c =? 45); injection Esg as _ <-; simpl; lia. }
  destruct (parse_int s1) as [[i s2]|] eqn:Ei; [|done].
  assert (H2 : (length s2 < length s1)%nat).
  { unfold parse_int in Ei. destruct s1 as [|c r0]; [done|].
    destruct (c =? 48); [injection Ei as _ <-; simpl; lia|].
    destruct (is_digit c); [|done].
    destruct (span_digits r0) as [ds r'] eqn:Ed. injection Ei as _ <-.
    apply span_digits_length in Ed. simpl. lia. }
  destruct (parse_frac s2) as [[fr s3]|] eqn:Ef; [|done].
  assert (H3 : (length s3 ≤ length s2)%nat).
  { unfold parse_frac in Ef. destruct s2 as [|c r0]; [by injection Ef as _ <-|].
    destruct (c =? 46); [|injection Ef as _ <-; simpl; lia].
    destruct (span_digits r0) as [ds r'] eqn:Ed. apply span_digits_length in Ed.
    destruct ds; [done|]. injection Ef as _ <-. simpl. lia. }
  destruct (parse_exp s3) as [[e s4]|] eqn:Ee; [|done].
  assert (H4 : (length s4 ≤ length s3)%nat).
  { unfold parse_exp in Ee. destruct s3 as [|c r0]; [by injection Ee as _ <-|].
    destruct ((c =? 101) || (c =? 69)); [|injection Ee as _ <-; simpl; lia].
    destruct (parse_exp_sign r0) as [sg' r1] eqn:Es.
    assert ((length r1 ≤ length r0)%nat).
    { unfold parse_exp_sign in Es. destruct r0 as [|c' r0']; [by injection Es as _ <-|].
      destruct ((c' =? 43) || (c' =? 45)); injection Es as _ <-; simpl; lia. }
    destruct (span_digits r1) as [ds r'] eqn:Ed. apply span_digits_length in Ed.
    destruct ds; [done|]. injection Ee as _ <-. simpl. lia. }
  split; [done|]. intros v r [= _ <-]. lia.
Qed.

Lemma strip_prefix_length p s r :
  strip_prefix p s = Some r → (length r + length p = length s)%nat.
Proof.
  revert s. induction p as [|a p IH]; intros s; simpl.
  - intros [= ->]. lia.
  - destruct s as [|b s]; [done|]. destruct (a =? b); [|done].
    intros E%IH. simpl. lia.
Qed.

Lemma parse_literal_progress s :
  parse_literal s ≠ POutOfFuel ∧
  ∀ v r, parse_literal s = POk v r → (length r < length s)%nat.
Proof.
  unfold parse_literal.
  destruct (strip_prefix (js "null") s) as [r0|] eqn:E1.
  { apply strip_prefix_length in E1. simpl in E1.
    split; [done|]. intros v r [= _ <-]. lia. }
  destruct (strip_prefix (js "true") s) as [r0|] eqn:E2.
  { apply strip_prefix_length in E2. simpl in E2.
    split; [done|]. intros v r [= _ <-]. lia. }
  destruct (strip_prefix (js "false") s) as [r0|] eqn:E3.
  { apply strip_prefix_length in E3. simpl in E3.
    split; [done|]. intros v r [= _ <-]. lia. }
  apply parse_number_progress.
Qed.

End Fuel.

Section FuelValue.
Implicit Types (s r : jsstring) (f : nat).

Lemma progress_error s : progress PSyntaxError s.
Proof. by split. Qed.

Lemma progress_ok v r s : (length r < length s)%nat → progress (POk v r) s.
Proof. intros H. split; [done|]. by intros ? ? [= _ <-]. Qed.

Lemma progress_shorter res s s' :
  (length s ≤ length s')%nat → progress res s → progress res s'.
Proof. intros Hle [H1 H2]. split; [done|]. intros v r E%H2. lia. Qed.

Lemma parse_fuel_enough f :
  (∀ s, (2 * length s < f)%nat → progress (parse_value f s) s) ∧
  (∀ s acc, (2 * length s + 1 < f)%nat → progress (parse_elements f s acc) s) ∧
  (∀ s acc, (2 * length s + 1 < f)%nat → progress (parse_members f s acc) s).
Proof.
  induction f as [|f (IHv & IHe & IHm)]; [split_and!; intros; lia|].
  split_and!.
  - intros s Hf. simpl.
    destruct (skip_ws s) as [|c r] eqn:Es; [apply progress_error|].
    apply skip_ws_cons in Es.
    destruct (c =? 123).
    { destruct (skip_ws r) as [|d r'] eqn:Er; [apply progress_error|].
      apply skip_ws_cons in Er.
      destruct (d =? 125); [apply progress_ok; lia|].
      eapply progress_shorter; [|apply IHm]; lia. }
    destruct (c =? 91).
    { destruct (skip_ws r) as [|d r'] eqn:Er; [apply progress_error|].
      apply skip_ws_cons in Er.
      destruct (d =? 93); [apply progress_ok; lia|].
      eapply progress_shorter; [|apply IHe]; lia. }
    destruct (c =? 34).
    { destruct (parse_chars_progress r []) as [H1 H2].
      destruct (parse_chars r []) as [str r'| |] eqn:Ec; [|apply progress_error|done].
      specialize (H2 _ _ eq_refl). apply progress_ok. lia. }
    pose proof (skip_ws_length s) as Hle.
    destruct (parse_literal_progress (c :: r)) as [H1 H2].
    split; [done|]. intros v r0 E%H2. simpl in E. lia.
  - intros s acc Hf. simpl.
    destruct (IHv s ltac:(lia)) as [H1 H2].
    destruct (parse_value f s) as [v r| |] eqn:Ev; [|apply progress_error|done].
    specialize (H2 _ _ eq_refl).
    destruct (skip_ws r) as [|c r'] eqn:Er; [apply progress_error|].
    apply skip_ws_cons in Er.
    destruct (c =? 44).
    { eapply progress_shorter; [|apply IHe]; lia. }
    destruct (c =? 93); [apply progress_ok; lia|apply progress_error].
  - intros s acc Hf. simpl.
    destruct (skip_ws s) as [|q r] eqn:Es; [apply progress_error|].
    apply skip_ws_cons in Es.
    destruct (q =? 34); [|apply progress_error].
    destruct (parse_chars_progress r []) as [H1 H2].
    destruct (parse_chars r []) as [k r1| |] eqn:Ec; [|apply progress_error|done].
    specialize (H2 _ _ eq_refl).
    destruct (skip_ws r1) as [|c r2] eqn:Er1; [apply progress_error|].
    apply skip_ws_cons in Er1.
    destruct (c =? 58); [|apply progress_error].
    destruct (IHv r2 ltac:(lia)) as [H3 H4].
    destruct (parse_value f r2) as [v r3| |] eqn:Ev; [|apply progress_error|done].
    specialize (H4 _ _ eq_refl).
    destruct (skip_ws r3) as [|d r4] eqn:Er3; [apply progress_error|].
    apply skip_ws_cons in Er3.
    destruct (d =? 44).
    { eapply progress_shorter; [|apply IHm]; lia. }
    destruct (d =? 125); [apply progress_ok; lia|apply progress_error].
Qed.

(** The parser never runs out of the fuel [JSON_parse] gives it. *)
Lemma parse_value_fuel (text : jsstring) :
  parse_value (2 * length text + 2) text ≠ POutOfFuel.
Proof.
  destruct (parse_fuel_enough (2 * length text + 2)) as (Hv & _ & _).
  apply (Hv text). lia.
Qed.

(** [JSON.parse] raises a SyntaxError or nothing. *)
Lemma JSON_parse_raises (text : jsstring) e :
  JSON_parse text = Raised e → e = SyntaxError.
Proof.
  unfold JSON_parse.
  destruct (parse_value _ text) as [v r| |]; [|by intros [= <-]..].
  destruct (skip_ws r); [done|by intros [= <-]].
Qed.

End FuelValue.

(** * [JSON.parse] after [JSON.stringify] on task lists *)

Section Strings.
Implicit Types (s r acc : jsstring) (c d : N).

Lemma hex_value_digit d : d < 16 → hex_value (hex_digit d) = Some d.
Proof.
  intros Hd. destruct d as [|p]; [reflexivity|].
  do 4 (try destruct p as [p|p|]); first [reflexivity | lia].
Qed.

Lemma hex4_unicode_escape c :
  code_unit c →
  hex4 (hex_digit (c / 4096 mod 16)) (hex_digit (c / 256 mod 16))
       (hex_digit (c / 16 mod 16)) (hex_digit (c mod 16)) = Some c.
Proof.
  unfold code_unit. intros Hc. unfold hex4.
  rewrite !hex_value_digit by (apply N.mod_lt; lia).
  f_equal.
  assert (E1 : c / 256 = c / 16 / 16) by (by rewrite N.Div0.div_div).
  assert (E2 : c / 4096 = c / 256 / 16) by (by rewrite N.Div0.div_div).
  pose proof (N.div_mod c 16 ltac:(lia)) as H0.
  pose proof (N.div_mod (c / 16) 16 ltac:(lia)) as H1.
  pose proof (N.div_mod (c / 256) 16 ltac:(lia)) as H2.
  assert (H3 : c / 4096 < 16) by (apply N.Div0.div_lt_upper_bound; lia).
  rewrite (N.mod_small (c / 4096) 16) by done.
  rewrite <-E1 in H1. rewrite <-E2 in H2. lia.
Qed.

Lemma parse_chars_raw c r acc :
  c ≠ 34 → c ≠ 92 → 32 ≤ c →
  parse_chars (c :: r) acc = parse_chars r (acc ++ [c]).
Proof.
  intros H1 H2 H3. simpl.
  rewrite (proj2 (N.eqb_neq c 34)), (proj2 (N.eqb_neq c 92)) by done.
  by rewrite (proj2 (N.ltb_ge c 32)).
Qed.

Lemma parse_chars_surrogate c r acc :
  is_surrogate c = true →
  parse_chars (c :: r) acc = parse_chars r (acc ++ [c]).
Proof.
  unfold is_surrogate. rewrite andb_true_iff, !N.leb_le. intros [H1 H2].
  apply parse_chars_raw; lia.
Qed.

Lemma parse_chars_unicode h1 h2 h3 h4 r acc :
  parse_chars (92 :: 117 :: h1 :: h2 :: h3 :: h4 :: r) acc
  = match hex4 h1 h2 h3 h4 with
    | Some u => parse_chars r (acc ++ [u])
    | None => PSyntaxError
    end.
Proof. reflexivity. Qed.

Lemma parse_chars_quote_unit c r acc :
  code_unit c →
  parse_chars (quote_unit c ++ r) acc = parse_chars r (acc ++ [c]).
Proof.
  intros Hc. unfold quote_unit.
  destruct (N.eqb_spec c 8) as [->|?]; [reflexivity|].
  destruct (N.eqb_spec c 9) as [->|?]; [reflexivity|].
  destruct (N.eqb_spec c 10) as [->|?]; [reflexivity|].
  destruct (N.eqb_spec c 12) as [->|?]; [reflexivity|].
  destruct (N.eqb_spec c 13) as [->|?]; [reflexivity|].
  destruct (N.eqb_spec c 34) as [->|?]; [reflexivity|].
  destruct (N.eqb_spec c 92) as [->|?]; [reflexivity|].
  destruct ((c <? 32) || is_surrogate c) eqn:E.
  - unfold unicode_escape. rewrite <-!app_comm_cons, app_nil_l.
    by rewrite parse_chars_unicode, hex4_unicode_escape.
  - apply orb_false_iff in E as [E _]. apply N.ltb_ge in E.
    by apply parse_chars_raw.
Qed.

Lemma high_is_surrogate c : is_high_surrogate c = true → is_surrogate c = true.
Proof.
  unfold is_high_surrogate, is_surrogate.
  rewrite !andb_true_iff, !N.leb_le. lia.
Qed.

Lemma low_is_surrogate c : is_low_surrogate c = true → is_surrogate c = true.
Proof.
  unfold is_low_surrogate, is_surrogate.
  rewrite !andb_true_iff, !N.leb_le. lia.
Qed.

Lemma parse_chars_quote_units s : ∀ after_high acc r,
  wf_string s →
  (after_high = true → starts_with_low s = true) →
  parse_chars (quote_units after_high s ++ 34 :: r) acc = POk (acc ++ s) r.
Proof.
  induction s as [|c s IH]; intros b acc r Hwf Hb.
  - simpl. by rewrite app_nil_r.
  - apply Forall_cons in Hwf as [Hc Hwf].
    rewrite (cons_middle c acc s), app_assoc.
    cbn [quote_units]. destruct b.
    + rewrite <-app_comm_cons, parse_chars_surrogate
        by (apply low_is_surrogate; by apply Hb).
      by apply IH.
    + destruct (is_high_surrogate c && starts_with_low s) eqn:E.
      * apply andb_true_iff in E as [E1 E2].
        rewrite <-app_comm_cons, parse_chars_surrogate
          by by apply high_is_surrogate.
        by apply IH.
      * rewrite <-app_assoc, parse_chars_quote_unit by done.
        by apply IH.
Qed.

Lemma parse_chars_QuoteJSONString s r :
  wf_string s →
  parse_chars (quote_units false s ++ 34 :: r) [] = POk s r.
Proof. intros Hwf. by rewrite parse_chars_quote_units. Qed.

End Strings.

Section Values.
Implicit Types (s r k : jsstring) (f : nat) (t : Task) (l : list Task).

Lemma skip_ws_head c r : is_json_ws c = false → skip_ws (c :: r) = c :: r.
Proof. intros H. simpl. by rewrite H. Qed.

Lemma parse_value_quote f r :
  parse_value (S f) (34 :: r)
  = match parse_chars r [] with
    | POk str r' => POk (JString str) r'
    | PSyntaxError => PSyntaxError
    | POutOfFuel => POutOfFuel
    end.
Proof. reflexivity. Qed.

Lemma parse_value_string f s r :
  wf_string s →
  parse_value (S f) (QuoteJSONString s ++ r) = POk (JString s) r.
Proof.
  intros Hwf. unfold QuoteJSONString.
  rewrite <-app_comm_cons, <-app_assoc, parse_value_quote.
  change ([34] ++ r) with (34 :: r).
  by rewrite parse_chars_QuoteJSONString.
Qed.

Lemma parse_value_bool f (b : bool) r :
  parse_value (S f) (JSON_stringify (JBool b) ++ r) = POk (JBool b) r.
Proof. by destruct b. Qed.

Lemma parse_members_quote f r acc :
  parse_members (S f) (34 :: r) acc
  = match parse_chars r [] with
    | POk k r1 =>
        match skip_ws r1 with
        | [] => PSyntaxError
        | c :: r2 =>
            if c =? 58 then
              match parse_value f r2 with
              | POk v r3 =>
                  match skip_ws r3 with
                  | [] => PSyntaxError
                  | d :: r4 =>
                      if d =? 44 then parse_members f r4 (obj_set acc k v)
                      else if d =? 125 then POk (JObject (obj_set acc k v)) r4
                           else PSyntaxError
                  end
              | PSyntaxError => PSyntaxError
              | POutOfFuel => POutOfFuel
              end
            else PSyntaxError
        end
    | PSyntaxError => PSyntaxError
    | POutOfFuel => POutOfFuel
    end.
Proof. reflexivity. Qed.

(** One member ["k":sv] and the separator [d] after it, where [sv] is the
    text of a value [v] that the parser reads back. *)
Lemma parse_members_field f k sv v d r acc :
  wf_string k →
  is_json_ws d = false →
  parse_value f (sv ++ d :: r) = POk v (d :: r) →
  parse_members (S f) (QuoteJSONString k ++ 58 :: sv ++ d :: r) acc
  = if d =? 44 then parse_members f r (obj_set acc k v)
    else if d =? 125 then POk (JObject (obj_set acc k v)) r
         else PSyntaxError.
Proof.
  intros Hk Hd Hv. unfold QuoteJSONString.
  rewrite <-app_comm_cons, <-app_assoc, parse_members_quote.
  change ([34] ++ 58 :: sv ++ d :: r) with (34 :: 58 :: sv ++ d :: r).
  rewrite parse_chars_QuoteJSONString by done.
  rewrite skip_ws_head by reflexivity.
  change (58 =? 58) with true. cbv iota.
  rewrite Hv. by rewrite skip_ws_head.
Qed.

Lemma stringify_task t r :
  JSON_stringify (task_value t) ++ r
  = 123 :: QuoteJSONString (js "id") ++ 58 :: QuoteJSONString (id t) ++
    44 :: QuoteJSONString (js "text") ++ 58 :: QuoteJSONString (text t) ++
    44 :: QuoteJSONString (js "completed") ++
    58 :: JSON_stringify (JBool (completed t)) ++ 125 :: r.
Proof.
  unfold task_value.
  cbn [JSON_stringify map join_comma].
  rewrite <-!app_comm_cons. f_equal.
  repeat (rewrite <-?app_assoc, <-?app_comm_cons; f_equal).
Qed.

Lemma wf_string_js (a : string) : wf_string (js a).
Proof.
  unfold wf_string, js. apply Forall_fmap, Forall_forall. intros c _.
  unfold code_unit. simpl. pose proof (N_ascii_bounded c). lia.
Qed.

Lemma parse_value_brace f r :
  parse_value (S f) (123 :: 34 :: r) = parse_members f (34 :: r) [].
Proof. reflexivity. Qed.

Lemma parse_value_task f t r :
  wf_task t →
  parse_value (5 + f) (JSON_stringify (task_value t) ++ r) = POk (task_value t) r.
Proof.
  intros [Hid Htext]. rewrite stringify_task.
  change (5 + f)%nat with (S (S (S (S (S f))))).
  unfold QuoteJSONString at 1. rewrite <-app_comm_cons, parse_value_brace.
  change (34 :: (quote_units false (js "id") ++ [34]) ++ ?x)
    with (QuoteJSONString (js "id") ++ x).
  rewrite (parse_members_field _ _ _ (JString (id t)));
    [|apply wf_string_js|done|by apply parse_value_string].
  change (44 =? 44) with true. cbv iota.
  rewrite (parse_members_field _ _ _ (JString (text t)));
    [|apply wf_string_js|done|by apply parse_value_string].
  change (44 =? 44) with true. cbv iota.
  rewrite (parse_members_field _ _ _ (JBool (completed t)));
    [|apply wf_string_js|done|by apply parse_value_bool].
  reflexivity.
Qed.

End Values.

Section TaskLists.
Implicit Types (s r : jsstring) (f : nat) (t : Task) (l : list Task).

Lemma parse_elements_unfold f s acc :
  parse_elements (S f) s acc
  = match parse_value f s with
    | POk v r =>
        match skip_ws r with
        | [] => PSyntaxError
        | c :: r' =>
            if c =? 44 then parse_elements f r' (acc ++ [v])
            else if c =? 93 then POk (JArray (acc ++ [v])) r'
                 else PSyntaxError
        end
    | PSyntaxError => PSyntaxError
    | POutOfFuel => POutOfFuel
    end.
Proof. reflexivity. Qed.

Lemma parse_elements_tasks l : ∀ t acc f r,
  Forall wf_task (t :: l) →
  parse_elements (S (length l + (5 + f)))
    (join_comma (map JSON_stringify (map task_value (t :: l))) ++ 93 :: r) acc
  = POk (JArray (acc ++ map task_value (t :: l))) r.
Proof.
  induction l as [|t' l IH]; intros t acc f r [Ht Hl]%Forall_cons.
  - rewrite parse_elements_unfold. cbn [map join_comma length Nat.add].
    rewrite (parse_value_task f) by done.
    by rewrite skip_ws_head.
  - rewrite parse_elements_unfold.
    change (join_comma (map JSON_stringify (map task_value (t :: t' :: l))))
      with (JSON_stringify (task_value t) ++
            44 :: join_comma (map JSON_stringify (map task_value (t' :: l)))).
    rewrite <-app_assoc, <-app_comm_cons.
    replace (length (t' :: l) + (5 + f))%nat
      with (5 + S (length l + f))%nat by (simpl; lia).
    rewrite parse_value_task by done.
    rewrite skip_ws_head by done. change (44 =? 44) with true. cbv iota.
    replace (5 + S (length l + f))%nat
      with (S (length l + (5 + f)))%nat by lia.
    rewrite IH by done.
    by rewrite <-app_assoc.
Qed.

Lemma join_comma_length (parts : list jsstring) :
  Forall (λ p, 1 ≤ length p)%nat parts →
  (length parts ≤ length (join_comma parts))%nat.
Proof.
  induction 1 as [|p ps Hp _ IH]; [done|].
  destruct ps as [|p' ps]; [simpl; lia|].
  change (join_comma (p :: p' :: ps)) with (p ++ 44 :: join_comma (p' :: ps)).
  rewrite length_app. simpl in *. lia.
Qed.

Lemma parse_value_bracket f t l r :
  parse_value (S f) (JSON_stringify (tasks_value (t :: l)) ++ r)
  = parse_elements f
      (join_comma (map JSON_stringify (map task_value (t :: l))) ++ 93 :: r) [].
Proof.
  unfold tasks_value.
  change (JSON_stringify (JArray (task_value <$> t :: l)))
    with (91 :: join_comma (map JSON_stringify (map task_value (t :: l))) ++ [93]).
  rewrite <-app_comm_cons, <-app_assoc. change ([93] ++ r) with (93 :: r).
  destruct l as [|t' l].
  - cbn [map join_comma]. by rewrite stringify_task.
  - change (join_comma (map JSON_stringify (map task_value (t :: t' :: l))))
      with (JSON_stringify (task_value t) ++
            44 :: join_comma (map JSON_stringify (map task_value (t' :: l)))).
    rewrite <-app_assoc. by rewrite stringify_task.
Qed.

Lemma stringify_tasks_length l :
  (length l + 2 ≤ length (JSON_stringify (tasks_value l)))%nat.
Proof.
  unfold tasks_value.
  change (JSON_stringify (JArray (task_value <$> l)))
    with (91 :: join_comma (map JSON_stringify (map task_value l)) ++ [93]).
  simpl. rewrite length_app. simpl.
  assert (H : (length (map JSON_stringify (map task_value l))
               ≤ length (join_comma (map JSON_stringify (map task_value l))))%nat).
  { apply join_comma_length. rewrite !Forall_map. apply Forall_forall.
    intros t _. rewrite <-(app_nil_r (JSON_stringify _)), stringify_task.
    simpl. lia. }
  rewrite !length_map in H. lia.
Qed.

(** The string written for a task list is read back as the same value. *)
Lemma JSON_parse_stringify_tasks l :
  Forall wf_task l →
  JSON_parse (JSON_stringify (tasks_value l)) = Returned (tasks_value l).
Proof.
  intros Hwf. destruct l as [|t l]; [reflexivity|].
  unfold JSON_parse.
  pose proof (stringify_tasks_length (t :: l)) as Hlen.
  change (length (t :: l)) with (S (length l)) in Hlen.
  replace (2 * length (JSON_stringify (tasks_value (t :: l))) + 2)%nat
    with (S (S (length l +
                (5 + (2 * length (JSON_stringify (tasks_value (t :: l)))
                      - length l - 5))))) by lia.
  rewrite <-(app_nil_r (JSON_stringify _)) at 2.
  rewrite parse_value_bracket, parse_elements_tasks by done.
  reflexivity.
Qed.

Lemma as_task_value t : as_task (task_value t) = Some t.
Proof. by destruct t. Qed.

Lemma as_tasks_value l : as_tasks (tasks_value l) = Some l.
Proof.
  unfold as_tasks, tasks_value. induction l as [|t l IH]; [done|].
  rewrite fmap_cons. cbn [mapM]. rewrite as_task_value. simpl.
  by rewrite IH.
Qed.

End TaskLists.

(** * Persistence *)

Section Persistence.
Implicit Types (b : Browser) (key raw : jsstring) (v : value) (st : Storage).

Lemma getItem_open b st key :
  window b = Some st → blocked st = false →
  getItem key b = (Returned (items st !! key), b).
Proof. intros Hw Hb. unfold getItem. by rewrite Hw, Hb. Qed.

Lemma setItem_accepted b key raw :
  accepts b key raw → setItem key raw b = (Returned (), written b key raw).
Proof.
  intros (st & Hw & Hb & Hq). unfold setItem, written. rewrite Hw, Hb.
  by rewrite bool_decide_eq_true_2.
Qed.

Lemma written_lookup b key raw :
  accepts b key raw →
  ∃ st, window (written b key raw) = Some st ∧ blocked st = false ∧
        items st !! key = Some raw.
Proof.
  intros (st & Hw & Hb & Hq). unfold written. rewrite Hw.
  eexists. split_and!; [done..|]. simpl. apply lookup_insert_eq.
Qed.

(** A failed write leaves the browser as it was. *)
Lemma setItem_raised b b' key raw e :
  setItem key raw b = (Raised e, b') → b' = b.
Proof.
  unfold setItem. destruct (window b) as [st|]; [|by intros [= _ <-]].
  destruct (blocked st); [by intros [= _ <-]|].
  case_bool_decide; [done|by intros [= _ <-]].
Qed.

Lemma useLocalStorage_init_server key v b :
  window b = None → useLocalStorage_init key v b = (Returned v, b).
Proof.
  intros Hw. unfold useLocalStorage_init, bind, window_defined. rewrite Hw.
  rewrite bool_decide_eq_false_2 by (by intros [? ?]). done.
Qed.

Lemma useLocalStorage_init_client key v b st :
  window b = Some st →
  useLocalStorage_init key v b
  = try_catch (let* item := getItem key in parse_or item v)
      (λ e, console_error (reading_message key) e ;;; ret v) b.
Proof.
  intros Hw. unfold useLocalStorage_init at 1, bind at 1, window_defined.
  rewrite Hw. by rewrite bool_decide_eq_true_2.
Qed.

Lemma useLocalStorage_init_stored key v b st raw :
  window b = Some st → blocked st = false → items st !! key = Some raw →
  useLocalStorage_init key v b
  = match raw with
    | [] => (Returned v, b)
    | _ :: _ =>
        match JSON_parse raw with
        | Returned v' => (Returned v', b)
        | Raised e =>
            (Returned v,
             mkBrowser (window b) (console b ++ [mkLog (reading_message key) e]))
        end
    end.
Proof.
  intros Hw Hb Hk. rewrite (useLocalStorage_init_client _ _ _ st) by done.
  unfold try_catch, bind. rewrite (getItem_open _ st) by done. rewrite Hk.
  destruct raw as [|c r]; [done|]. unfold parse_or, lift.
  by destruct (JSON_parse (c :: r)).
Qed.

Lemma useLocalStorage_init_absent key v b st :
  window b = Some st → blocked st = false → items st !! key = None →
  useLocalStorage_init key v b = (Returned v, b).
Proof.
  intros Hw Hb Hk. rewrite (useLocalStorage_init_client _ _ _ st) by done.
  unfold try_catch, bind. rewrite (getItem_open _ st) by done. by rewrite Hk.
Qed.

Lemma useLocalStorage_init_blocked key v b st :
  window b = Some st → blocked st = true →
  useLocalStorage_init key v b
  = (Returned v,
     mkBrowser (window b) (console b ++ [mkLog (reading_message key) SecurityError])).
Proof.
  intros Hw Hb. rewrite (useLocalStorage_init_client _ _ _ st) by done.
  unfold try_catch, bind, getItem, console_error, ret.
  rewrite Hw, Hb. simpl. by rewrite ?Hw.
Qed.

Lemma useLocalStorage_init_returns key v b :
  ∃ v' b', useLocalStorage_init key v b = (Returned v', b').
Proof.
  destruct (window b) as [st|] eqn:Hw;
    [|rewrite useLocalStorage_init_server by done; eauto].
  destruct (blocked st) eqn:Hb;
    [rewrite (useLocalStorage_init_blocked _ _ _ st) by done; eauto|].
  destruct (items st !! key) as [raw|] eqn:Hk;
    [|rewrite (useLocalStorage_init_absent _ _ _ st) by done; eauto].
  rewrite (useLocalStorage_init_stored _ _ _ st raw) by done.
  destruct raw; [eauto|]. destruct (JSON_parse _); eauto.
Qed.

Lemma TodoList_init_stored b st raw :
  window b = Some st → blocked st = false → items st !! tasks_key = Some raw →
  TodoList_init b
  = match raw with
    | [] => (Returned (JArray []), b)
    | _ :: _ =>
        match JSON_parse raw with
        | Returned v' => (Returned v', b)
        | Raised e => (Returned (JArray []), b)
        end
    end.
Proof.
  intros Hw Hb Hk. unfold TodoList_init, bind at 1, window_defined.
  rewrite Hw, bool_decide_eq_true_2 by done.
  unfold try_catch, bind. rewrite (getItem_open _ st) by done. rewrite Hk.
  destruct raw as [|c r]; [done|]. unfold parse_or, lift.
  by destruct (JSON_parse (c :: r)).
Qed.

Lemma TodoList_init_returns b : ∃ v b', TodoList_init b = (Returned v, b').
Proof.
  destruct (window b) as [st|] eqn:Hw.
  - destruct (blocked st) eqn:Hb.
    + unfold TodoList_init, bind at 1, window_defined.
      rewrite Hw, bool_decide_eq_true_2 by done.
      unfold try_catch, bind, getItem, ret. rewrite Hw, Hb. eauto.
    + destruct (items st !! tasks_key) as [raw|] eqn:Hk.
      * rewrite (TodoList_init_stored _ st raw) by done.
        destruct raw; [eauto|]. destruct (JSON_parse _); eauto.
      * unfold TodoList_init, bind at 1, window_defined.
        rewrite Hw, bool_decide_eq_true_2 by done.
        unfold try_catch, bind. rewrite (getItem_open _ st) by done.
        rewrite Hk. unfold parse_or, ret. eauto.
  - unfold TodoList_init, bind, window_defined, ret.
    rewrite Hw, bool_decide_eq_false_2 by (by intros [? ?]). eauto.
Qed.

Lemma useLocalStorage_effect_client key v b :
  is_Some (window b) →
  useLocalStorage_effect key v b
  = try_catch (setItem key (JSON_stringify v))
      (λ e, console_error (setting_message key) e) b.
Proof.
  intros Hw. unfold useLocalStorage_effect, bind at 1, window_defined.
  by rewrite bool_decide_eq_true_2.
Qed.

(** The effect of the hook catches a failed write and logs it. *)
Lemma useLocalStorage_effect_swallows key v b e b1 :
  is_Some (window b) →
  setItem key (JSON_stringify v) b = (Raised e, b1) →
  useLocalStorage_effect key v b
  = (Returned (),
     mkBrowser (window b) (console b ++ [mkLog (setting_message key) e])).
Proof.
  intros Hw Hset. rewrite useLocalStorage_effect_client by done.
  unfold try_catch. rewrite Hset. apply setItem_raised in Hset as ->. done.
Qed.

(** The commit of the hook returns, with the state cell as it was. *)
Lemma useLocalStorage_commit_keeps key (h : Hook) b :
  ∃ b', useLocalStorage_commit key h b = (Returned h, b').
Proof.
  unfold useLocalStorage_commit, bind, useLocalStorage_effect, bind,
    window_defined, try_catch, console_error, ret.
  cbv beta. destruct (bool_decide (is_Some (window b))); simpl; [|eauto].
  destruct (setItem key (JSON_stringify (storedValue h)) b) as [[[]|e] b1]; eauto.
Qed.

(** Setting the value, by a new value or by a function of the old one:
    the setter returns, whatever becomes of the write; the state cell stays
    when the new value is the old one by [Object.is], and holds the new
    value otherwise. *)
Lemma useLocalStorage_set_keeps key (arg : value + (value → value))
    (identical : bool) (h : Hook) b :
  ∃ b', useLocalStorage_set key arg identical h b
        = (Returned (if Object_is identical (storedValue h)
                          (storedValue (setStoredValue arg h))
                     then h else setStoredValue arg h), b').
Proof.
  unfold useLocalStorage_set.
  destruct (Object_is identical _ _); [by eexists|].
  apply useLocalStorage_commit_keeps.
Qed.

(** The effect of the component hands a failed write on to its caller. *)
Lemma TodoList_effect_propagates (l : list Task) b e b1 :
  setItem tasks_key (JSON_stringify (tasks_value l)) b = (Raised e, b1) →
  TodoList_effect l b = (Raised e, b).
Proof.
  intros Hset. unfold TodoList_effect. rewrite Hset.
  by apply setItem_raised in Hset as ->.
Qed.

Lemma stringify_tasks_head (l : list Task) :
  ∃ r, JSON_stringify (tasks_value l) = 91 :: r.
Proof. by eexists. Qed.

End Persistence.

(** ** Save, then load *)

(** C7: for every list of tasks (whose strings are JavaScript strings, that
    is, sequences of 16-bit code units), the string the save path writes
    parses back to the same value, whose typed view is the list itself: the
    same ids, texts and completed flags in the same order. Whenever the
    browser takes the write, loading under the same key after saving
    returns that value, through the hook for any key and initial value, and
    through the component's own effect and initialiser. *)
Theorem save_then_load_round_trip (key : jsstring) (initialValue : value)
    (b : Browser) (l : list Task) :
  Forall wf_task l →
  JSON_parse (JSON_stringify (tasks_value l)) = Returned (tasks_value l) ∧
  as_tasks (tasks_value l) = Some l ∧
  (accepts b key (JSON_stringify (tasks_value l)) →
   ∃ b', useLocalStorage_effect key (tasks_value l) b = (Returned (), b') ∧
         useLocalStorage_init key initialValue b' = (Returned (tasks_value l), b')) ∧
  (accepts b tasks_key (JSON_stringify (tasks_value l)) →
   ∃ b', TodoList_effect l b = (Returned (), b') ∧
         TodoList_init b' = (Returned (tasks_value l), b')).
Proof.
  intros Hwf.
  pose proof (JSON_parse_stringify_tasks l Hwf) as Hrt.
  destruct (stringify_tasks_head l) as [r Hr].
  split_and!; [done|apply as_tasks_value| |];
    destruct (JSON_stringify (tasks_value l)) as [|c r'] eqn:E; try done;
    intros Hacc.
  - exists (written b key (c :: r')). split.
    + rewrite useLocalStorage_effect_client
        by (destruct Hacc as (st & -> & _); eauto).
      unfold try_catch. by rewrite E, setItem_accepted.
    + destruct (written_lookup _ _ _ Hacc) as (st' & Hw & Hb & Hk).
      rewrite (useLocalStorage_init_stored _ _ _ st' _ Hw Hb Hk).
      by rewrite Hrt.
  - exists (written b tasks_key (c :: r')). split.
    + unfold TodoList_effect. by rewrite E, setItem_accepted.
    + destruct (written_lookup _ _ _ Hacc) as (st' & Hw & Hb & Hk).
      rewrite (TodoList_init_stored _ st' _ Hw Hb Hk).
      by rewrite Hrt.
Qed.

Lemma two_tasks_wf : Forall wf_task two_tasks.
Proof.
  unfold two_tasks. repeat (apply Forall_cons; split); [| |apply Forall_nil];
    split; apply wf_string_js.
Qed.

Lemma empty_browser_accepts :
  accepts empty_browser tasks_key (JSON_stringify (tasks_value two_tasks)).
Proof.
  exists (mkStorage ∅ 5000 false). split_and!; [done..|].
  apply Nat.leb_le. by vm_compute.
Qed.

Lemma save_then_load_round_trip_witness :
  JSON_parse (JSON_stringify (tasks_value two_tasks)) = Returned (tasks_value two_tasks) ∧
  as_tasks (tasks_value two_tasks) = Some two_tasks ∧
  (∃ b', useLocalStorage_effect tasks_key (tasks_value two_tasks) empty_browser
         = (Returned (), b') ∧
         useLocalStorage_init tasks_key JNull b' = (Returned (tasks_value two_tasks), b')) ∧
  (∃ b', TodoList_effect two_tasks empty_browser = (Returned (), b') ∧
         TodoList_init b' = (Returned (tasks_value two_tasks), b')).
Proof.
  destruct (save_then_load_round_trip tasks_key JNull empty_browser two_tasks)
    as (Hparse & Hview & Hhook & Hcomponent).
  - apply two_tasks_wf.
  - split_and!; [exact Hparse|exact Hview| |].
    + apply Hhook, empty_browser_accepts.
    + apply Hcomponent, empty_browser_accepts.
Defined.

(** ** Loading when there is nothing to load *)

Lemma not_json_is_malformed : JSON_parse (js "not json") = Raised SyntaxError.
Proof. reflexivity. Qed.

(** C8, as amended: for every key and every initial value, loading through
    the hook returns and never raises; it returns the initial value when
    there is no window, when nothing is stored under the key, when the
    browser denies the access to the storage, and when the stored string
    fails to parse. In the last two cases it logs the error with the key,
    as for the text [not json] under the key ["tasks"] with initial value
    [[]]; in the first two cases it logs nothing. *)
Theorem load_falls_back_to_initial (key : jsstring) (v : value) (b : Browser) :
  (∃ v' b', useLocalStorage_init key v b = (Returned v', b')) ∧
  (window b = None → useLocalStorage_init key v b = (Returned v, b)) ∧
  (∀ st, window b = Some st → blocked st = false → items st !! key = None →
         useLocalStorage_init key v b = (Returned v, b)) ∧
  (∀ st, window b = Some st → blocked st = true →
         useLocalStorage_init key v b
         = (Returned v,
            mkBrowser (window b)
              (console b ++ [mkLog (reading_message key) SecurityError]))) ∧
  (∀ st raw e, window b = Some st → blocked st = false →
         items st !! key = Some raw → raw ≠ [] → JSON_parse raw = Raised e →
         e = SyntaxError ∧
         useLocalStorage_init key v b
         = (Returned v,
            mkBrowser (window b)
              (console b ++ [mkLog (reading_message key) SyntaxError]))) ∧
  useLocalStorage_init tasks_key (JArray []) corrupt_browser
  = (Returned (JArray []),
     mkBrowser (window corrupt_browser)
       [mkLog (reading_message tasks_key) SyntaxError]).
Proof.
  split_and!.
  - apply useLocalStorage_init_returns.
  - apply useLocalStorage_init_server.
  - apply useLocalStorage_init_absent.
  - apply useLocalStorage_init_blocked.
  - intros st raw e Hw Hb Hk Hne Hp.
    pose proof (JSON_parse_raises _ _ Hp) as ->. split; [done|].
    rewrite (useLocalStorage_init_stored _ _ _ st raw) by done.
    destruct raw; [done|]. by rewrite Hp.
  - rewrite (useLocalStorage_init_stored _ _ _
               (mkStorage {[ tasks_key := js "not json" ]} 5000 false)
               (js "not json")); [done..|].
    apply lookup_singleton_eq.
Qed.

(** C8, as stated, fails: on the server, where there is no window, and in a
    browser that stores nothing under the key, the hook returns the
    initial value and logs nothing. *)
Lemma load_without_log :
  ¬ fallback_logged tasks_key (JArray []) server ∧
  ¬ fallback_logged tasks_key (JArray []) empty_browser.
Proof.
  split; intros [entry H].
  - rewrite useLocalStorage_init_server in H by done.
    injection H as H. simpl in H. by destruct entry.
  - rewrite (useLocalStorage_init_absent _ _ _ (mkStorage ∅ 5000 false)) in H
      by done.
    injection H as H. by destruct entry.
Qed.

(** The component's own initialiser returns too, and with the empty list
    when the stored text does not parse; its console is left as it was. *)
Lemma TodoList_init_malformed :
  TodoList_init corrupt_browser = (Returned (JArray []), corrupt_browser).
Proof.
  rewrite (TodoList_init_stored _
             (mkStorage {[ tasks_key := js "not json" ]} 5000 false)
             (js "not json")); [done..|].
  apply lookup_singleton_eq.
Qed.

(** ** A write that fails *)

Lemma setItem_full (raw : jsstring) :
  setItem tasks_key raw full_browser = (Raised QuotaExceededError, full_browser).
Proof.
  unfold setItem, full_browser. simpl.
  rewrite bool_decide_eq_false_2; [done|].
  unfold storage_size. rewrite insert_empty, map_fold_singleton. simpl. lia.
Qed.

(** The effect of the hook at a write that fails: the error is logged, the
    effect returns, the commit hands back the state cell as it was. *)
Lemma useLocalStorage_survives_full_storage (h : Hook) :
  useLocalStorage_commit tasks_key h full_browser
  = (Returned h,
     mkBrowser (window full_browser)
       [mkLog (setting_message tasks_key) QuotaExceededError]).
Proof.
  unfold useLocalStorage_commit, bind.
  rewrite (useLocalStorage_effect_swallows _ _ _ QuotaExceededError full_browser);
    [done|by eexists|apply setItem_full].
Qed.

(** C9, on the component's own effect: with a storage that has no room,
    the write of the task list raises a QuotaExceededError, and the effect,
    which has no [try] around the write, raises it to its caller and logs
    nothing; the hook's effect on the same write logs the error and
    returns. *)
Theorem TodoList_effect_raises_write_failure :
  TodoList_effect two_tasks full_browser = (Raised QuotaExceededError, full_browser) ∧
  useLocalStorage_effect tasks_key (tasks_value two_tasks) full_browser
  = (Returned (),
     mkBrowser (window full_browser)
       [mkLog (setting_message tasks_key) QuotaExceededError]).
Proof.
  split.
  - apply (TodoList_effect_propagates _ _ _ full_browser), setItem_full.
  - rewrite (useLocalStorage_effect_swallows _ _ _ QuotaExceededError full_browser);
      [done|by eexists|apply setItem_full].
Qed.

(** * The view of the component *)

Section View.
Implicit Types (l : list Task) (i uuid : jsstring) (t : Task).

Lemma remainingCount_cons t l :
  remainingCount (t :: l)
  = ((if completed t then 0 else 1) + remainingCount l)%nat.
Proof.
  unfold remainingCount. destruct (completed t) eqn:Hc.
  - rewrite filter_cons_False by (rewrite Hc; simpl; congruence). done.
  - rewrite filter_cons_True by (by rewrite Hc). done.
Qed.

Lemma filteredTasks_cons filter_ t l :
  filteredTasks filter_ (t :: l)
  = if shows filter_ t then t :: filteredTasks filter_ l
    else filteredTasks filter_ l.
Proof.
  unfold filteredTasks. destruct (shows filter_ t) eqn:Hs.
  - by rewrite filter_cons_True.
  - rewrite filter_cons_False; [done|]. by rewrite Hs.
Qed.

Lemma clear_completed_cons uuid t l :
  tasksReducer uuid (t :: l) CLEAR_COMPLETED
  = if completed t then tasksReducer uuid l CLEAR_COMPLETED
    else t :: tasksReducer uuid l CLEAR_COMPLETED.
Proof.
  simpl. destruct (completed t) eqn:Hc.
  - rewrite filter_cons_False by (rewrite Hc; simpl; congruence). done.
  - rewrite filter_cons_True by (by rewrite Hc). done.
Qed.

Lemma filteredTasks_all l : filteredTasks FilterAll l = l.
Proof.
  induction l as [|t l IH]; [done|]. rewrite filteredTasks_cons. simpl. by f_equal.
Qed.

Lemma clear_completed_is_active_view uuid l :
  tasksReducer uuid l CLEAR_COMPLETED = filteredTasks FilterActive l.
Proof. done. Qed.

Lemma toggle_absent uuid l i :
  i ∉ ids l → tasksReducer uuid l (TOGGLE i) = l.
Proof.
  intros Hni. simpl. induction l as [|t l IH]; [done|].
  unfold ids in Hni. rewrite fmap_cons, not_elem_of_cons in Hni.
  destruct Hni as [Hne Hni]. rewrite fmap_cons.
  rewrite decide_False by done. f_equal. by apply IH.
Qed.

Lemma delete_cons uuid t l i :
  tasksReducer uuid (t :: l) (DELETE i)
  = if decide (id t = i) then tasksReducer uuid l (DELETE i)
    else t :: tasksReducer uuid l (DELETE i).
Proof.
  simpl. destruct (decide (id t = i)) as [He|Hne].
  - rewrite filter_cons_False by naive_solver. done.
  - by rewrite filter_cons_True.
Qed.

End View.

(** X1: the filter only selects. Under [all] the rows are the whole list;
    the rows under [active] and the rows under [completed] are subsequences
    of the list, no task is in both, and together they are the list up to
    order. *)
Theorem filtered_views_partition (l : list Task) :
  filteredTasks FilterAll l = l ∧
  sublist (filteredTasks FilterActive l) l ∧
  sublist (filteredTasks FilterCompleted l) l ∧
  filteredTasks FilterActive l ++ filteredTasks FilterCompleted l ≡ₚ l ∧
  (∀ t, t ∈ filteredTasks FilterActive l → t ∉ filteredTasks FilterCompleted l).
Proof.
  split_and!.
  - apply filteredTasks_all.
  - apply sublist_filter.
  - apply sublist_filter.
  - induction l as [|t l IH]; [done|]. rewrite !filteredTasks_cons. simpl.
    destruct (completed t); simpl.
    + rewrite <-Permutation_middle. by constructor.
    + by constructor.
  - intros t. unfold filteredTasks. rewrite !list_elem_of_filter. simpl.
    intros [Ha _] [Hc _]. rewrite Hc in Ha. discriminate.
Qed.

(** X2: the counter of tasks left is the number of rows under the [active]
    filter, the counter and the number of rows under [completed] add up to
    the length of the list, and the counter is zero exactly when the
    [active] filter shows its message in place of rows. *)
Theorem remainingCount_counts_active_rows (l : list Task) :
  remainingCount l = length (filteredTasks FilterActive l) ∧
  (remainingCount l + length (filteredTasks FilterCompleted l) = length l)%nat ∧
  (remainingCount l = 0%nat ↔
   rendered_message FilterActive l = Some (empty_message FilterActive)).
Proof.
  split_and!.
  - done.
  - induction l as [|t l IH]; [done|].
    rewrite remainingCount_cons, filteredTasks_cons. simpl.
    destruct (completed t); simpl; lia.
  - unfold rendered_message, remainingCount.
    change (filter (λ t, negb (completed t) = true) l)
      with (filteredTasks FilterActive l).
    destruct (filteredTasks FilterActive l); simpl; split; done.
Qed.

(** X3: after ClearCompleted no row is left under the [completed] filter,
    the rows under [active] and the counter are what they were, the whole
    list is its [active] view, the Clear Completed button is not rendered,
    and a second ClearCompleted changes nothing. *)
Theorem clear_completed_then_view uuid uuid' (l : list Task) :
  let l' := tasksReducer uuid l CLEAR_COMPLETED in
  filteredTasks FilterCompleted l' = [] ∧
  filteredTasks FilterActive l' = filteredTasks FilterActive l ∧
  l' = filteredTasks FilterActive l ∧
  remainingCount l' = remainingCount l ∧
  clear_button_shown l' = false ∧
  tasksReducer uuid' l' CLEAR_COMPLETED = l'.
Proof.
  intros l'. subst l'. rewrite !clear_completed_is_active_view.
  assert (Hidem : filteredTasks FilterActive (filteredTasks FilterActive l)
                  = filteredTasks FilterActive l).
  { induction l as [|t l IH]; [done|]. rewrite filteredTasks_cons.
    destruct (shows FilterActive t) eqn:Hs; [|exact IH].
    rewrite filteredTasks_cons, Hs. by f_equal. }
  split_and!; [| done | done | | | done].
  - clear Hidem. induction l as [|t l IH]; [done|]. rewrite filteredTasks_cons.
    destruct (shows FilterActive t) eqn:Hs; [|exact IH].
    rewrite filteredTasks_cons. simpl in *.
    by destruct (completed t).
  - change (remainingCount (filteredTasks FilterActive l))
      with (length (filteredTasks FilterActive (filteredTasks FilterActive l))).
    by rewrite Hidem.
  - clear Hidem. unfold clear_button_shown. induction l as [|t l IH]; [done|].
    rewrite filteredTasks_cons. simpl.
    destruct (completed t) eqn:Hc; simpl; [done|]. by rewrite Hc.
Qed.

(** X4: the Clear Completed button is rendered exactly when ClearCompleted
    would change the list, which is exactly when the counter of tasks left
    is below the length of the list. *)
Theorem clear_button_iff_clear_changes uuid (l : list Task) :
  (clear_button_shown l = true ↔ tasksReducer uuid l CLEAR_COMPLETED ≠ l) ∧
  (clear_button_shown l = true ↔ (remainingCount l < length l)%nat).
Proof.
  assert (Hle : ∀ l0 : list Task, (remainingCount l0 ≤ length l0)%nat).
  { intros l0. apply length_filter. }
  assert (H2 : clear_button_shown l = true ↔ (remainingCount l < length l)%nat).
  { induction l as [|t l IH]; [simpl; split; [done|unfold remainingCount; simpl; lia]|].
    rewrite remainingCount_cons. unfold clear_button_shown in *. simpl.
    specialize (Hle l). destruct (completed t); simpl.
    - split; [lia|done].
    - rewrite IH. lia. }
  split; [|done]. rewrite H2. split.
  - intros Hlt Heq. change (filteredTasks FilterActive l = l) in Heq.
    unfold remainingCount in Hlt.
    change (filter (λ t, negb (completed t) = true) l)
      with (filteredTasks FilterActive l) in Hlt.
    rewrite Heq in Hlt. lia.
  - intros Hne. destruct (decide (remainingCount l < length l)%nat) as [|Hge]; [done|].
    exfalso. apply Hne. clear Hne H2.
    induction l as [|t l IH]; [done|].
    rewrite remainingCount_cons in Hge. rewrite clear_completed_cons.
    specialize (Hle l). destruct (completed t); simpl in *; [lia|].
    f_equal. apply IH. lia.
Qed.

(** X5: Add puts the new task last in the rows under [all] and under
    [active], raises the counter of tasks left by one, and leaves the rows
    under [completed] and the Clear Completed button as they were. *)
Theorem add_then_view uuid (l : list Task) (txt : jsstring) :
  let l' := tasksReducer uuid l (ADD txt) in
  filteredTasks FilterAll l' = l ++ [mkTask uuid txt false] ∧
  filteredTasks FilterActive l'
  = filteredTasks FilterActive l ++ [mkTask uuid txt false] ∧
  filteredTasks FilterCompleted l' = filteredTasks FilterCompleted l ∧
  remainingCount l' = S (remainingCount l) ∧
  clear_button_shown l' = clear_button_shown l.
Proof.
  intros l'. subst l'. simpl. unfold filteredTasks, remainingCount, clear_button_shown.
  rewrite !filter_app, existsb_app, !length_app. simpl.
  rewrite !filter_cons_True, filter_cons_False by (simpl; congruence).
  rewrite !filter_nil, !app_nil_r, orb_false_r. simpl.
  split_and!; try done; [|lia].
  f_equal. apply filteredTasks_all.
Qed.

Section UniqueIds.
Implicit Types (l : list Task) (i uuid : jsstring) (t : Task) (k : nat).

Lemma lookup_id_elem l k t : l !! k = Some t → id t ∈ ids l.
Proof.
  intros Hk. unfold ids. apply list_elem_of_fmap. exists t. split; [done|].
  by eapply list_elem_of_lookup_2.
Qed.

Lemma toggle_cons uuid t l i :
  tasksReducer uuid (t :: l) (TOGGLE i)
  = (if decide (id t = i) then mkTask (id t) (text t) (negb (completed t)) else t)
    :: tasksReducer uuid l (TOGGLE i).
Proof. done. Qed.

Lemma toggle_at_position uuid l k t :
  NoDup (ids l) → l !! k = Some t →
  tasksReducer uuid l (TOGGLE (id t))
  = <[k := mkTask (id t) (text t) (negb (completed t))]> l.
Proof.
  revert k. induction l as [|t0 l IH]; intros k Hnd Hk; [done|].
  unfold ids in Hnd. rewrite fmap_cons in Hnd. apply NoDup_cons in Hnd as [Hni Hnd].
  rewrite toggle_cons. destruct k as [|k]; simpl in Hk.
  - injection Hk as ->. rewrite decide_True by done. simpl. f_equal.
    by apply (toggle_absent uuid).
  - pose proof (lookup_id_elem _ _ _ Hk) as Hin.
    rewrite decide_False by (intros He; apply Hni; unfold ids in Hin; by rewrite He).
    simpl. f_equal. by apply (IH k).
Qed.

Lemma delete_at_position uuid l k t :
  NoDup (ids l) → l !! k = Some t →
  tasksReducer uuid l (DELETE (id t)) = delete k l.
Proof.
  revert k. induction l as [|t0 l IH]; intros k Hnd Hk; [done|].
  unfold ids in Hnd. rewrite fmap_cons in Hnd. apply NoDup_cons in Hnd as [Hni Hnd].
  rewrite delete_cons. destruct k as [|k]; simpl in Hk.
  - injection Hk as ->. rewrite decide_True by done.
    by apply (delete_unchanged uuid).
  - pose proof (lookup_id_elem _ _ _ Hk) as Hin.
    rewrite decide_False by (intros He; apply Hni; unfold ids in Hin; by rewrite He).
    simpl. f_equal. by apply IH.
Qed.

Lemma remainingCount_insert l k t t' :
  l !! k = Some t →
  (remainingCount (<[k := t']> l) + (if completed t then 0 else 1)
   = remainingCount l + (if completed t' then 0 else 1))%nat.
Proof.
  revert k. induction l as [|t0 l IH]; intros k Hk; [done|].
  destruct k as [|k]; simpl in *.
  - injection Hk as ->. rewrite !remainingCount_cons. lia.
  - rewrite !remainingCount_cons. specialize (IH _ Hk). lia.
Qed.

End UniqueIds.

(** X6: when the ids of the list are pairwise distinct, Toggle of the id
    of the task at position [k] changes that position only: the list after
    Toggle is the list with the task at [k] replaced by the task with its
    flag negated. The counter of tasks left goes up by one when the task
    was completed and down by one when it was not. *)
Theorem toggle_updates_one_position uuid (l : list Task) (k : nat) (t : Task) :
  NoDup (ids l) → l !! k = Some t →
  let l' := tasksReducer uuid l (TOGGLE (id t)) in
  l' = <[k := mkTask (id t) (text t) (negb (completed t))]> l ∧
  (∀ j, j ≠ k → l' !! j = l !! j) ∧
  (if completed t then remainingCount l' = S (remainingCount l)
   else S (remainingCount l') = remainingCount l).
Proof.
  intros Hnd Hk l'. subst l'.
  rewrite (toggle_at_position _ _ _ _ Hnd Hk). split_and!; [done| |].
  - intros j Hj. by apply list_lookup_insert_ne.
  - pose proof (remainingCount_insert l k t
                  (mkTask (id t) (text t) (negb (completed t))) Hk) as H.
    simpl in H. destruct (completed t); simpl in *; lia.
Qed.

Lemma toggle_updates_one_position_witness :
  let l' := tasksReducer [] two_tasks (TOGGLE some_uuid) in
  l' = <[1%nat := mkTask some_uuid milk true]> two_tasks ∧
  (∀ j, j ≠ 1%nat → l' !! j = two_tasks !! j) ∧
  S (remainingCount l') = remainingCount two_tasks.
Proof.
  apply (toggle_updates_one_position [] two_tasks 1 (mkTask some_uuid milk false)).
  - unfold ids, two_tasks. simpl. apply NoDup_cons. split; [|apply NoDup_singleton].
    rewrite list_elem_of_singleton. vm_compute. discriminate.
  - done.
Defined.

(** X7: when the ids of the list are pairwise distinct, Delete of the id of
    the task at position [k] removes that position and nothing else: the
    tasks before [k] stay, the tasks after [k] move up by one. *)
Theorem delete_removes_one_position uuid (l : list Task) (k : nat) (t : Task) :
  NoDup (ids l) → l !! k = Some t →
  let l' := tasksReducer uuid l (DELETE (id t)) in
  l' = take k l ++ drop (S k) l ∧
  (∀ j, (j < k)%nat → l' !! j = l !! j) ∧
  (∀ j, (k ≤ j)%nat → l' !! j = l !! S j).
Proof.
  intros Hnd Hk l'. subst l'.
  rewrite (delete_at_position _ _ _ _ Hnd Hk). split_and!.
  - apply delete_take_drop.
  - intros j Hj. by apply list_lookup_delete_lt.
  - intros j Hj. by apply list_lookup_delete_ge.
Qed.

Lemma delete_removes_one_position_witness :
  let l' := tasksReducer [] two_tasks (DELETE other_uuid) in
  l' = take 0 two_tasks ++ drop 1 two_tasks ∧
  (∀ j, (j < 0)%nat → l' !! j = two_tasks !! j) ∧
  (∀ j, (0 ≤ j)%nat → l' !! j = two_tasks !! S j).
Proof.
  apply (delete_removes_one_position [] two_tasks 0 (mkTask other_uuid bread true)).
  - unfold ids, two_tasks. simpl. apply NoDup_cons. split; [|apply NoDup_singleton].
    rewrite list_elem_of_singleton. vm_compute. discriminate.
  - done.
Defined.

(** * How the transitions compose *)

Lemma toggle_cons_eq uuid (t : Task) (l : list Task) (i : jsstring) :
  id t = i →
  tasksReducer uuid (t :: l) (TOGGLE i)
  = mkTask (id t) (text t) (negb (completed t)) :: tasksReducer uuid l (TOGGLE i).
Proof. intros H. rewrite toggle_cons. by rewrite decide_True. Qed.

Lemma toggle_cons_ne uuid (t : Task) (l : list Task) (i : jsstring) :
  id t ≠ i →
  tasksReducer uuid (t :: l) (TOGGLE i) = t :: tasksReducer uuid l (TOGGLE i).
Proof. intros H. rewrite toggle_cons. by rewrite decide_False. Qed.

Lemma delete_cons_eq uuid (t : Task) (l : list Task) (i : jsstring) :
  id t = i →
  tasksReducer uuid (t :: l) (DELETE i) = tasksReducer uuid l (DELETE i).
Proof. intros H. rewrite delete_cons. by rewrite decide_True. Qed.

Lemma delete_cons_ne uuid (t : Task) (l : list Task) (i : jsstring) :
  id t ≠ i →
  tasksReducer uuid (t :: l) (DELETE i) = t :: tasksReducer uuid l (DELETE i).
Proof. intros H. rewrite delete_cons. by rewrite decide_False. Qed.

Lemma clear_cons_completed uuid (t : Task) (l : list Task) :
  completed t = true →
  tasksReducer uuid (t :: l) CLEAR_COMPLETED = tasksReducer uuid l CLEAR_COMPLETED.
Proof. intros H. rewrite clear_completed_cons. by rewrite H. Qed.

Lemma clear_cons_active uuid (t : Task) (l : list Task) :
  completed t = false →
  tasksReducer uuid (t :: l) CLEAR_COMPLETED
  = t :: tasksReducer uuid l CLEAR_COMPLETED.
Proof. intros H. rewrite clear_completed_cons. by rewrite H. Qed.

(** X8: Delete commutes with Delete, with Toggle and with ClearCompleted,
    Toggle commutes with Toggle, a second Delete of the same id changes
    nothing, and Delete of an id after Toggle of that id is Delete alone;
    all of it on every list, with repeated ids or not. *)
Theorem transitions_commute u1 u2 u3 u4 (l : list Task) (i j : jsstring) :
  tasksReducer u1 (tasksReducer u2 l (DELETE j)) (DELETE i)
  = tasksReducer u3 (tasksReducer u4 l (DELETE i)) (DELETE j) ∧
  tasksReducer u1 (tasksReducer u2 l (DELETE i)) (DELETE i)
  = tasksReducer u3 l (DELETE i) ∧
  tasksReducer u1 (tasksReducer u2 l (TOGGLE j)) (TOGGLE i)
  = tasksReducer u3 (tasksReducer u4 l (TOGGLE i)) (TOGGLE j) ∧
  tasksReducer u1 (tasksReducer u2 l (TOGGLE i)) (DELETE j)
  = tasksReducer u3 (tasksReducer u4 l (DELETE j)) (TOGGLE i) ∧
  tasksReducer u1 (tasksReducer u2 l CLEAR_COMPLETED) (DELETE i)
  = tasksReducer u3 (tasksReducer u4 l (DELETE i)) CLEAR_COMPLETED ∧
  tasksReducer u1 (tasksReducer u2 l (TOGGLE i)) (DELETE i)
  = tasksReducer u3 l (DELETE i).
Proof.
  split_and!.
  - induction l as [|t l IH]; [done|].
    destruct (decide (id t = i)) as [Hi|Hi], (decide (id t = j)) as [Hj|Hj].
    + by rewrite (delete_cons_eq u2), (delete_cons_eq u4).
    + rewrite (delete_cons_ne u2), (delete_cons_eq u4) by done.
      by rewrite (delete_cons_eq u1).
    + rewrite (delete_cons_eq u2), (delete_cons_ne u4) by done.
      by rewrite (delete_cons_eq u3).
    + rewrite (delete_cons_ne u2), (delete_cons_ne u4) by done.
      rewrite (delete_cons_ne u1), (delete_cons_ne u3) by done. by f_equal.
  - induction l as [|t l IH]; [done|].
    destruct (decide (id t = i)) as [Hi|Hi].
    + by rewrite (delete_cons_eq u2), (delete_cons_eq u3).
    + rewrite (delete_cons_ne u2), (delete_cons_ne u3) by done.
      rewrite (delete_cons_ne u1) by done. by f_equal.
  - induction l as [|t l IH]; [done|]. rewrite !toggle_cons.
    f_equal; [|done]. destruct t as [ti tt tc]. simpl.
    repeat (case_decide; simpl in * ); congruence.
  - induction l as [|t l IH]; [done|].
    destruct (decide (id t = i)) as [Hi|Hi], (decide (id t = j)) as [Hj|Hj].
    + rewrite (toggle_cons_eq u2), (delete_cons_eq u4) by done.
      by rewrite (delete_cons_eq u1).
    + rewrite (toggle_cons_eq u2), (delete_cons_ne u4) by done.
      rewrite (delete_cons_ne u1), (toggle_cons_eq u3) by done. by f_equal.
    + rewrite (toggle_cons_ne u2), (delete_cons_eq u4) by done.
      by rewrite (delete_cons_eq u1).
    + rewrite (toggle_cons_ne u2), (delete_cons_ne u4) by done.
      rewrite (delete_cons_ne u1), (toggle_cons_ne u3) by done. by f_equal.
  - induction l as [|t l IH]; [done|].
    destruct (decide (id t = i)) as [Hi|Hi], (completed t) eqn:Hc.
    + by rewrite (clear_cons_completed u2), (delete_cons_eq u4).
    + rewrite (clear_cons_active u2), (delete_cons_eq u4) by done.
      by rewrite (delete_cons_eq u1).
    + rewrite (clear_cons_completed u2), (delete_cons_ne u4) by done.
      by rewrite (clear_cons_completed u3).
    + rewrite (clear_cons_active u2), (delete_cons_ne u4) by done.
      rewrite (delete_cons_ne u1), (clear_cons_active u3) by done. by f_equal.
  - induction l as [|t l IH]; [done|].
    destruct (decide (id t = i)) as [Hi|Hi].
    + rewrite (toggle_cons_eq u2), (delete_cons_eq u3) by done.
      by rewrite (delete_cons_eq u1).
    + rewrite (toggle_cons_ne u2), (delete_cons_ne u3) by done.
      rewrite (delete_cons_ne u1) by done. by f_equal.
Qed.

(** X9: an id that no task of the list has. Toggle of it returns the list
    unchanged. When it is the id the generator gives to an added task,
    Delete of it after the Add gives the list back, and Toggle of it after
    the Add completes the new task and nothing else. *)
Theorem absent_id_transitions u1 u2 (l : list Task) (i txt : jsstring) :
  i ∉ ids l →
  tasksReducer u1 l (TOGGLE i) = l ∧
  tasksReducer u2 (tasksReducer i l (ADD txt)) (DELETE i) = l ∧
  tasksReducer u2 (tasksReducer i l (ADD txt)) (TOGGLE i)
  = l ++ [mkTask i txt true].
Proof.
  intros Hni. split_and!.
  - by apply toggle_absent.
  - pose proof (delete_unchanged u2 l i Hni) as Hd. simpl in *.
    rewrite filter_app, Hd, filter_cons_False by naive_solver.
    by rewrite filter_nil, app_nil_r.
  - pose proof (toggle_absent u2 l i Hni) as Ht. simpl in *.
    rewrite fmap_app, Ht. simpl. by rewrite decide_True.
Qed.

Lemma absent_id_transitions_witness :
  tasksReducer [] two_tasks (TOGGLE milk) = two_tasks ∧
  tasksReducer [] (tasksReducer milk two_tasks (ADD bread)) (DELETE milk)
  = two_tasks ∧
  tasksReducer [] (tasksReducer milk two_tasks (ADD bread)) (TOGGLE milk)
  = two_tasks ++ [mkTask milk bread true].
Proof.
  apply (absent_id_transitions [] [] two_tasks milk bread).
  unfold ids, two_tasks. simpl. rewrite !not_elem_of_cons.
  split_and!; [vm_compute; discriminate..|apply not_elem_of_nil].
Defined.

(** * The handlers *)

Section Trim.
Implicit Types (s a z : jsstring).

Lemma trim_start_split s :
  ∃ a, s = a ++ trim_start s ∧ blank a ∧ starts_with_space (trim_start s) = false.
Proof.
  induction s as [|c s (a & Hs & Ha & Hn)];
    [exists []; split_and!; [done|constructor|done]|].
  simpl. destruct (is_white_space c) eqn:Hc.
  - exists (c :: a). split_and!; [by rewrite Hs at 1|by constructor|done].
  - exists []. split_and!; [done|constructor|done].
Qed.

Lemma trim_start_blank s : blank s → trim_start s = [].
Proof. induction 1 as [|c s Hc _ IH]; [done|]. simpl. by rewrite Hc. Qed.

Lemma starts_with_space_app s z :
  s ≠ [] → starts_with_space (s ++ z) = starts_with_space s.
Proof. by destruct s. Qed.

Lemma trim_split s :
  ∃ a z, s = a ++ trim s ++ z ∧ blank a ∧ blank z ∧
         starts_with_space (trim s) = false ∧
         starts_with_space (reverse (trim s)) = false.
Proof.
  unfold trim.
  destruct (trim_start_split s) as (a & Hs & Ha & Hn).
  destruct (trim_start_split (reverse (trim_start s))) as (b & Hr & Hb & Hm).
  set (v := trim_start (reverse (trim_start s))) in *.
  assert (Hu : trim_start s = reverse v ++ reverse b).
  { rewrite <-(reverse_involutive (trim_start s)), Hr. by rewrite reverse_app. }
  exists a, (reverse b). split_and!.
  - by rewrite <-Hu.
  - done.
  - unfold blank in *. by apply Forall_reverse.
  - destruct (reverse v) as [|c r] eqn:Ev; [done|].
    rewrite Hu in Hn. by rewrite starts_with_space_app in Hn.
  - by rewrite reverse_involutive.
Qed.

Lemma trim_blank s : trim s = [] ↔ blank s.
Proof.
  split.
  - intros Ht. destruct (trim_split s) as (a & z & Hs & Ha & Hz & _).
    rewrite Ht in Hs. rewrite Hs. unfold blank in *.
    apply Forall_app. by split.
  - intros Hb. unfold trim. by rewrite (trim_start_blank s).
Qed.

End Trim.

Lemma handleAddTask_cases uuid (f : Form) :
  (blank (newTaskText f) ∧ handleAddTask uuid f = f) ∨
  (∃ a txt z,
     newTaskText f = a ++ txt ++ z ∧ blank a ∧ blank z ∧ trimmed txt ∧
     handleAddTask uuid f = mkForm (tasks f ++ [mkTask uuid txt false]) []).
Proof.
  destruct (trim_split (newTaskText f)) as (a & z & Hs & Ha & Hz & Hh & Hl).
  unfold handleAddTask.
  destruct (trim (newTaskText f)) as [|c r] eqn:Et.
  - left. split; [by apply trim_blank|done].
  - right. exists a, (c :: r), z. by split_and!.
Qed.

(** A submission changes the form exactly when something other than white
    space was typed. *)
Lemma submit_rejects_blank uuid (f : Form) :
  handleAddTask uuid f = f ↔ blank (newTaskText f).
Proof.
  destruct (handleAddTask_cases uuid f)
    as [[Hb He]|(a & txt & z & _ & _ & _ & [Hne _] & He)].
  - by split.
  - split.
    + rewrite He. destruct f as [ts s]. simpl. intros [= Hts _].
      apply (f_equal length) in Hts. rewrite length_app in Hts. simpl in Hts. lia.
    + intros Hb. apply trim_blank in Hb. unfold handleAddTask. by rewrite Hb.
Qed.

Section Runs.
Implicit Types (f : Form) (e : Event) (es : list Event).

Lemma handle_keeps_texts_trimmed e f :
  texts_trimmed f → texts_trimmed (handle e f).
Proof.
  unfold texts_trimmed. intros Hf. destruct e as [v|uuid|i|i|]; simpl.
  - done.
  - destruct (handleAddTask_cases uuid f)
      as [[_ ->]|(a & txt & z & _ & _ & _ & Ht & ->)]; [done|].
    simpl. apply Forall_app. split; [done|]. by constructor.
  - apply Forall_fmap. eapply Forall_impl; [exact Hf|].
    intros t Ht. simpl. by destruct (decide (id t = i)).
  - rewrite Forall_forall in *. intros t [_ Ht]%list_elem_of_filter. by apply Hf.
  - rewrite Forall_forall in *. intros t [_ Ht]%list_elem_of_filter. by apply Hf.
Qed.

End Runs.

(** X10: what a submission does. When the field holds white space only
    (or nothing), the form is left as it is: no task is added and the field
    is not emptied. Otherwise the field is white space, a text with no
    white space at either end, and white space again; one task with that
    text, not completed, is appended, and the field is emptied. A
    submission changes the form exactly when something other than white
    space was typed. *)
Theorem submit_adds_the_trimmed_text uuid (f : Form) :
  ((blank (newTaskText f) ∧ handleAddTask uuid f = f) ∨
   (∃ a txt z,
      newTaskText f = a ++ txt ++ z ∧ blank a ∧ blank z ∧ trimmed txt ∧
      handleAddTask uuid f = mkForm (tasks f ++ [mkTask uuid txt false]) [])) ∧
  (handleAddTask uuid f = f ↔ blank (newTaskText f)).
Proof. split; [apply handleAddTask_cases|apply submit_rejects_blank]. Qed.

(** X11: no sequence of user events gives a task an empty text or a text
    with white space at either end: when the texts of the list are free of
    both, so they are after typing, submitting, toggling, deleting and
    clearing in any order. *)
Theorem texts_stay_trimmed (es : list Event) (f : Form) :
  texts_trimmed f → texts_trimmed (run es f).
Proof.
  revert f. induction es as [|e es IH]; intros f Hf; [done|].
  unfold run. simpl. apply IH. by apply handle_keeps_texts_trimmed.
Qed.

Lemma texts_stay_trimmed_witness :
  texts_trimmed
    (run [Type_ (js "  Buy milk "); Submit some_uuid; Type_ (js "   ");
          Submit other_uuid; ClickToggle some_uuid]
         (mkForm [] [])).
Proof.
  apply (texts_stay_trimmed _ (mkForm [] [])). constructor.
Defined.

(** * More on persistence *)

Section Frames.
Implicit Types (b : Browser) (key raw : jsstring) (v : value) (st : Storage).

Lemma wrote_only_refl key b : wrote_only key b b.
Proof. unfold wrote_only. split; [done|]. by destruct (window b). Qed.

Lemma setItem_wrote_only key raw b r b' :
  setItem key raw b = (r, b') → wrote_only key b b'.
Proof.
  unfold setItem. destruct (window b) as [st|] eqn:Hw.
  - destruct (blocked st) eqn:Hb; [intros [= _ <-]; apply wrote_only_refl|].
    case_bool_decide; [|intros [= _ <-]; apply wrote_only_refl].
    intros [= _ <-]. unfold wrote_only. simpl. rewrite Hw. split; [done|].
    split_and!; [done..|]. intros k Hk. by apply lookup_insert_ne.
  - intros [= _ <-]. apply wrote_only_refl.
Qed.

Lemma useLocalStorage_effect_wrote_only key v b :
  ∃ b', useLocalStorage_effect key v b = (Returned (), b') ∧ wrote_only key b b'.
Proof.
  destruct (window b) as [st|] eqn:Hw.
  - rewrite useLocalStorage_effect_client by eauto. unfold try_catch.
    destruct (setItem key (JSON_stringify v) b) as [[[]|e] b1] eqn:Hs.
    + eexists. split; [done|]. by eapply setItem_wrote_only.
    + apply setItem_raised in Hs as ->. unfold console_error.
      eexists. split; [done|]. unfold wrote_only. simpl. rewrite Hw.
      split; [by apply prefix_app_r|done].
  - exists b. split; [|apply wrote_only_refl].
    unfold useLocalStorage_effect, bind, window_defined, ret. rewrite Hw.
    by rewrite bool_decide_eq_false_2 by (by intros [? ?]).
Qed.

Lemma wrote_only_same_at key key' b b' :
  key' ≠ key → wrote_only key b b' → same_at key' b b'.
Proof.
  unfold wrote_only, same_at. intros Hne [_ H].
  destruct (window b) as [st|], (window b') as [st'|]; try done.
  destruct H as (_ & Hb & Hi). split; [done|]. symmetry. by apply Hi.
Qed.

Lemma TodoList_init_value b :
  (TodoList_init b).1
  = match window b with
    | Some st =>
        if blocked st then Returned (JArray [])
        else match items st !! tasks_key with
             | Some (c :: r) =>
                 match JSON_parse (c :: r) with
                 | Returned v => Returned v
                 | Raised _ => Returned (JArray [])
                 end
             | _ => Returned (JArray [])
             end
    | None => Returned (JArray [])
    end.
Proof.
  destruct (window b) as [st|] eqn:Hw.
  - destruct (blocked st) eqn:Hb.
    + unfold TodoList_init, bind at 1, window_defined.
      rewrite Hw, bool_decide_eq_true_2 by done.
      unfold try_catch, bind, getItem, ret. by rewrite Hw, Hb.
    + destruct (items st !! tasks_key) as [raw|] eqn:Hk.
      * rewrite (TodoList_init_stored _ st raw) by done.
        destruct raw; [done|]. by destruct (JSON_parse _).
      * unfold TodoList_init, bind at 1, window_defined.
        rewrite Hw, bool_decide_eq_true_2 by done.
        unfold try_catch, bind. rewrite (getItem_open _ st) by done.
        by rewrite Hk.
  - unfold TodoList_init, bind, window_defined, ret.
    by rewrite Hw, bool_decide_eq_false_2 by (by intros [? ?]).
Qed.

Lemma useLocalStorage_init_value key v b :
  (useLocalStorage_init key v b).1
  = match window b with
    | Some st =>
        if blocked st then Returned v
        else match items st !! key with
             | Some (c :: r) =>
                 match JSON_parse (c :: r) with
                 | Returned v' => Returned v'
                 | Raised _ => Returned v
                 end
             | _ => Returned v
             end
    | None => Returned v
    end.
Proof.
  destruct (window b) as [st|] eqn:Hw.
  - destruct (blocked st) eqn:Hb.
    + by rewrite (useLocalStorage_init_blocked _ _ _ st).
    + destruct (items st !! key) as [raw|] eqn:Hk.
      * rewrite (useLocalStorage_init_stored _ _ _ st raw) by done.
        destruct raw; [done|]. by destruct (JSON_parse _).
      * by rewrite (useLocalStorage_init_absent _ _ _ st).
  - by rewrite useLocalStorage_init_server.
Qed.

End Frames.

(** X12: the effect of the hook at a write that fails, for every key and
    every value of the state cell: the effect returns, one entry with the
    key and the error raised by the write is added to the console, the
    storage is as it was, and the state cell holds the value it held. *)
Theorem hook_logs_and_keeps_value_on_failed_write
    (key : jsstring) (h : Hook) (b b1 : Browser) (e : exn) :
  is_Some (window b) →
  setItem key (JSON_stringify (storedValue h)) b = (Raised e, b1) →
  useLocalStorage_commit key h b
  = (Returned h,
     mkBrowser (window b) (console b ++ [mkLog (setting_message key) e])).
Proof.
  intros Hw Hset. unfold useLocalStorage_commit, bind.
  by rewrite (useLocalStorage_effect_swallows _ _ _ e b1).
Qed.

Lemma hook_logs_and_keeps_value_on_failed_write_witness :
  useLocalStorage_commit tasks_key (mkHook (tasks_value two_tasks)) full_browser
  = (Returned (mkHook (tasks_value two_tasks)),
     mkBrowser (window full_browser)
       (console full_browser
        ++ [mkLog (setting_message tasks_key) QuotaExceededError])).
Proof.
  apply (hook_logs_and_keeps_value_on_failed_write tasks_key
           (mkHook (tasks_value two_tasks)) full_browser full_browser).
  - by eexists.
  - apply setItem_full.
Defined.

(** X13: what the effect of the hook may touch. For every key, value and
    browser the effect returns; after it the console is the old console,
    possibly with entries added, the quota and the access to the storage
    are unchanged, every item under another key is unchanged, and without
    a window nothing at all has changed. *)
Theorem hook_effect_writes_its_key_only (key : jsstring) (v : value) (b : Browser) :
  ∃ b', useLocalStorage_effect key v b = (Returned (), b') ∧
        wrote_only key b b' ∧
        (window b = None → b' = b).
Proof.
  destruct (useLocalStorage_effect_wrote_only key v b) as (b' & He & Hw).
  exists b'. split_and!; [done..|].
  intros Hnone. unfold useLocalStorage_effect, bind, window_defined, ret in He.
  rewrite Hnone in He. rewrite bool_decide_eq_false_2 in He by (by intros [? ?]).
  simpl in He. by injection He.
Qed.

Lemma TodoList_init_reads (b : Browser) :
  ∃ v, TodoList_init b = (Returned v, b).
Proof.
  destruct (window b) as [st|] eqn:Hw.
  - destruct (blocked st) eqn:Hb.
    + unfold TodoList_init, bind at 1, window_defined.
      rewrite Hw, bool_decide_eq_true_2 by done.
      unfold try_catch, bind, getItem, ret. rewrite Hw, Hb. eauto.
    + destruct (items st !! tasks_key) as [raw|] eqn:Hk.
      * rewrite (TodoList_init_stored _ st raw) by done.
        destruct raw; [eauto|]. destruct (JSON_parse _); eauto.
      * unfold TodoList_init, bind at 1, window_defined.
        rewrite Hw, bool_decide_eq_true_2 by done.
        unfold try_catch, bind. rewrite (getItem_open _ st) by done.
        rewrite Hk. unfold parse_or, ret. eauto.
  - unfold TodoList_init, bind, window_defined, ret.
    rewrite Hw, bool_decide_eq_false_2 by (by intros [? ?]). eauto.
Qed.

Lemma useLocalStorage_init_reads (key : jsstring) (initialValue : value) (b : Browser) :
  ∃ v b', useLocalStorage_init key initialValue b = (Returned v, b') ∧
         window b' = window b ∧
         (console b' = console b ∨
          ∃ e, console b' = console b ++ [mkLog (reading_message key) e]).
Proof.
  destruct (window b) as [st|] eqn:Hw.
  - destruct (blocked st) eqn:Hb.
    + rewrite (useLocalStorage_init_blocked _ _ _ st) by done.
      eexists _, _. split_and!; [done|by simpl|]. right. by eexists.
    + destruct (items st !! key) as [raw|] eqn:Hk.
      * rewrite (useLocalStorage_init_stored _ _ _ st raw) by done.
        destruct raw; [eexists _, _; split_and!; [done..|by left]|].
        destruct (JSON_parse _) as [v'|e].
        -- eexists _, _. split_and!; [done..|by left].
        -- eexists _, _. split_and!; [done|by simpl|]. right. by eexists.
      * rewrite (useLocalStorage_init_absent _ _ _ st) by done.
        eexists _, _. split_and!; [done..|by left].
  - rewrite useLocalStorage_init_server by done.
    eexists _, _. split_and!; [done..|by left].
Qed.

(** X14: loading only reads. The initialiser of the component returns, for
    every browser, and leaves the browser as it is, console included. The
    initialiser of the hook returns, leaves the window and its storage as
    they are, and adds at most one entry to the console. *)
Theorem initialisers_only_read (key : jsstring) (initialValue : value) (b : Browser) :
  (∃ v, TodoList_init b = (Returned v, b)) ∧
  (∃ v b', useLocalStorage_init key initialValue b = (Returned v, b') ∧
           window b' = window b ∧
           (console b' = console b ∨
            ∃ e, console b' = console b ++ [mkLog (reading_message key) e])).
Proof. split; [apply TodoList_init_reads|apply useLocalStorage_init_reads]. Qed.

(** X15: the component's own initialiser loads what the hook loads. For
    every browser, the value with which [TodoList] starts is the value the
    hook returns for the key ["tasks"] and the initial value [[]]; the two
    differ in the console only. *)
Theorem component_loads_what_hook_loads (b : Browser) :
  (TodoList_init b).1 = (useLocalStorage_init tasks_key (JArray []) b).1 ∧
  window (TodoList_init b).2 = window (useLocalStorage_init tasks_key (JArray []) b).2.
Proof.
  split.
  - by rewrite TodoList_init_value, useLocalStorage_init_value.
  - destruct (TodoList_init_reads b) as [v ->].
    destruct (useLocalStorage_init_reads tasks_key (JArray []) b)
      as (v' & b' & -> & Hw & _). by simpl.
Qed.

(** X16: a stored empty string is taken for no value at all. With the
    empty string under the key, the hook returns the initial value and logs
    nothing, although [JSON.parse] of the empty string raises; with it
    under ["tasks"], the component starts with the empty list. *)
Theorem stored_empty_string_is_skipped
    (key : jsstring) (initialValue : value) (b : Browser) (st : Storage) :
  window b = Some st → blocked st = false → items st !! key = Some [] →
  useLocalStorage_init key initialValue b = (Returned initialValue, b) ∧
  JSON_parse [] = Raised SyntaxError ∧
  (key = tasks_key → TodoList_init b = (Returned (JArray []), b)).
Proof.
  intros Hw Hb Hk. split_and!.
  - by rewrite (useLocalStorage_init_stored _ _ _ st []).
  - done.
  - intros ->. by rewrite (TodoList_init_stored _ st []).
Qed.

Lemma stored_empty_string_is_skipped_witness :
  let b := mkBrowser (Some (mkStorage {[ tasks_key := [] ]} 5000 false)) [] in
  useLocalStorage_init tasks_key JNull b = (Returned JNull, b) ∧
  JSON_parse [] = Raised SyntaxError ∧
  (tasks_key = tasks_key → TodoList_init b = (Returned (JArray []), b)).
Proof.
  intros b.
  apply (stored_empty_string_is_skipped tasks_key JNull b
           (mkStorage {[ tasks_key := [] ]} 5000 false)).
  - done.
  - done.
  - apply lookup_singleton_eq.
Defined.

(** X17: the hook and the component do not disturb each other across
    keys. The effect of the hook under a key other than ["tasks"], whether
    its write succeeds or fails, leaves unchanged the value the component
    loads; and the effect of the component, whether it returns or raises,
    leaves unchanged the value the hook loads under such a key. *)
Theorem other_keys_are_left_alone
    (key : jsstring) (v initialValue : value) (l : list Task) (b : Browser) :
  key ≠ tasks_key →
  (TodoList_init (useLocalStorage_effect key v b).2).1 = (TodoList_init b).1 ∧
  (useLocalStorage_init key initialValue (TodoList_effect l b).2).1
  = (useLocalStorage_init key initialValue b).1.
Proof.
  intros Hne. split.
  - destruct (useLocalStorage_effect_wrote_only key v b) as (b' & -> & Hw).
    simpl. apply (wrote_only_same_at key tasks_key) in Hw; [|done].
    rewrite !TodoList_init_value. unfold same_at in Hw.
    destruct (window b) as [st|], (window b') as [st'|]; try done.
    destruct Hw as [-> ->]. done.
  - unfold TodoList_effect.
    destruct (setItem tasks_key (JSON_stringify (tasks_value l)) b) as [r b'] eqn:Hs.
    apply setItem_wrote_only in Hs. simpl.
    apply (wrote_only_same_at tasks_key key) in Hs; [|done].
    rewrite !useLocalStorage_init_value. unfold same_at in Hs.
    destruct (window b) as [st|], (window b') as [st'|]; try done.
    destruct Hs as [-> ->]. done.
Qed.

Lemma other_keys_are_left_alone_witness :
  (TodoList_init (useLocalStorage_effect milk JNull corrupt_browser).2).1
  = (TodoList_init corrupt_browser).1 ∧
  (useLocalStorage_init milk JNull (TodoList_effect two_tasks corrupt_browser).2).1
  = (useLocalStorage_init milk JNull corrupt_browser).1.
Proof.
  apply (other_keys_are_left_alone milk JNull JNull two_tasks corrupt_browser).
  vm_compute. discriminate.
Defined.

(** * The navigation bar *)

Section Nav.
Implicit Types (n : Navbar) (p : jsstring) (es : list NavEvent) (ws : list Z).

Lemma NAV_LINKS_hrefs (links : list LinkData) :
  href <$> NAV_LINKS links = url <$> links.
Proof. unfold NAV_LINKS. rewrite <-list_fmap_compose. done. Qed.

Lemma active_count_absent p (ls : list NavLink) :
  p ∉ (href <$> ls) → filter (λ l, isActive p l = true) ls = [].
Proof.
  induction ls as [|l ls IH]; [done|]. rewrite fmap_cons, not_elem_of_cons.
  intros [Hne Hni]. rewrite filter_cons_False; [by apply IH|].
  unfold isActive. by rewrite bool_decide_eq_false_2.
Qed.

Lemma nav_run_app es es' n : nav_run (es ++ es') n = nav_run es' (nav_run es n).
Proof. unfold nav_run. apply foldl_app. Qed.

Lemma screen_checks_keep_isOpen ws n :
  isOpen (nav_run (ScreenChecked <$> ws) n) = isOpen n ∧
  pathname (nav_run (ScreenChecked <$> ws) n) = pathname n.
Proof.
  revert n. induction ws as [|w ws IH]; intros n; [done|].
  rewrite fmap_cons. unfold nav_run. simpl.
  destruct (IH (checkScreenSize w n)) as [H1 H2]. unfold nav_run in *.
  by rewrite H1, H2.
Qed.

End Nav.

(** X18: which links are highlighted. The links of the bar are the given
    links in their order, [href] from [url] and [label] from [name]. When
    the urls are pairwise distinct, exactly one link is active if the
    path is one of the urls, and none is active otherwise. *)
Theorem at_most_one_active_link (links : list LinkData) (p : jsstring) :
  NoDup (url <$> links) →
  href <$> NAV_LINKS links = url <$> links ∧
  label <$> NAV_LINKS links = name <$> links ∧
  (p ∈ (url <$> links) →
   ∃ l, filter (λ l, isActive p l = true) (NAV_LINKS links) = [l] ∧ href l = p) ∧
  (p ∉ (url <$> links) →
   filter (λ l, isActive p l = true) (NAV_LINKS links) = []).
Proof.
  intros Hnd. split_and!.
  - apply NAV_LINKS_hrefs.
  - unfold NAV_LINKS. by rewrite <-list_fmap_compose.
  - rewrite <-NAV_LINKS_hrefs in *. induction (NAV_LINKS links) as [|l ls IH].
    + by intros ?%elem_of_nil.
    + rewrite fmap_cons in *. apply NoDup_cons in Hnd as [Hni Hnd].
      intros [->|Hin]%elem_of_cons.
      * exists l. rewrite filter_cons_True
          by (unfold isActive; by rewrite bool_decide_eq_true_2).
        by rewrite active_count_absent.
      * destruct (IH Hnd Hin) as (l' & Hf & Hl'). exists l'.
        rewrite filter_cons_False; [done|].
        unfold isActive. rewrite bool_decide_eq_false_2; [done|].
        intros ->. done.
  - rewrite <-NAV_LINKS_hrefs. apply active_count_absent.
Qed.

Lemma at_most_one_active_link_witness :
  let links := [mkLinkData (js "Home") (js "/"); mkLinkData (js "To-do") (js "/todo")] in
  href <$> NAV_LINKS links = url <$> links ∧
  label <$> NAV_LINKS links = name <$> links ∧
  (js "/todo" ∈ (url <$> links) →
   ∃ l, filter (λ l, isActive (js "/todo") l = true) (NAV_LINKS links) = [l] ∧
        href l = js "/todo") ∧
  (js "/todo" ∉ (url <$> links) →
   filter (λ l, isActive (js "/todo") l = true) (NAV_LINKS links) = []).
Proof.
  intros links.
  apply (at_most_one_active_link links (js "/todo")).
  unfold links. simpl. apply NoDup_cons. split; [|apply NoDup_singleton].
  rewrite list_elem_of_singleton. vm_compute. discriminate.
Defined.

(** X19: the mobile menu over sequences of events. After any events, a
    change of route to another path closes the menu, and it stays closed
    through any checks of the screen size; a change of route to the path
    at hand changes nothing, an open menu included; checks of the screen
    size never change [isOpen], so a menu open before the window grew
    wide is open again when it is narrow again; and after a check that
    found a width of 768 or more the menu is not shown. *)
Theorem mobile_menu_over_events (es : list NavEvent) (ws : list Z)
    (n : Navbar) (p : jsstring) (w : Z) :
  let n' := nav_run es n in
  (p ≠ pathname n' →
   mobile_menu_open (nav_run (es ++ RouteChanged p :: (ScreenChecked <$> ws)) n)
   = false) ∧
  nav_run (es ++ [RouteChanged (pathname n')]) n = n' ∧
  isOpen (nav_run (es ++ (ScreenChecked <$> ws)) n) = isOpen n' ∧
  ((768 ≤ w)%Z → mobile_menu_open (nav_run (es ++ [ScreenChecked w]) n) = false) ∧
  nav_run (es ++ [ClickHamburger; ClickHamburger]) n = n'.
Proof.
  intros n'. subst n'. split_and!.
  - intros Hne. rewrite nav_run_app.
    change (nav_run (RouteChanged p :: (ScreenChecked <$> ws)) (nav_run es n))
      with (nav_run (ScreenChecked <$> ws) (navigate p (nav_run es n))).
    unfold mobile_menu_open.
    destruct (screen_checks_keep_isOpen ws (navigate p (nav_run es n))) as [-> _].
    unfold navigate. by rewrite decide_False.
  - rewrite nav_run_app. unfold nav_run at 1. simpl. unfold navigate.
    by rewrite decide_True.
  - rewrite nav_run_app. apply screen_checks_keep_isOpen.
  - intros Hw. rewrite nav_run_app. unfold nav_run at 1, mobile_menu_open. simpl.
    rewrite bool_decide_eq_false_2 by lia. apply andb_false_r.
  - rewrite nav_run_app. unfold nav_run at 1. simpl. unfold toggleMenu. simpl.
    rewrite negb_involutive. by destruct (nav_run es n).
Qed.

(** * The round trip of the hook, for every storable value *)

Section AllValues.
Implicit Types (v e : value) (l : list value) (ps : list (jsstring * value))
  (f : nat) (r s : jsstring).

Lemma value_nested_ind (P : value → Prop) :
  P JNull → (∀ b, P (JBool b)) → (∀ x, P (JNumber x)) → (∀ x, P (JString x)) →
  (∀ l, Forall P l → P (JArray l)) →
  (∀ ps, Forall (λ kv, P kv.2) ps → P (JObject ps)) →
  ∀ v, P v.
Proof.
  intros Hnull Hbool Hnum Hstr Harr Hobj. fix IH 1.
  intros [|b|x|x|l|ps]; [done..| |].
  - apply Harr. induction l as [|e l IHl]; constructor; [apply IH|exact IHl].
  - apply Hobj. induction ps as [|[k e] ps IHps]; constructor; [apply IH|exact IHps].
Qed.

Lemma stringify_array l :
  JSON_stringify (JArray l) = 91 :: join_comma (map JSON_stringify l) ++ [93].
Proof. reflexivity. Qed.

Lemma stringify_object ps :
  JSON_stringify (JObject ps) = 123 :: join_comma (map member_string ps) ++ [125].
Proof. reflexivity. Qed.

Lemma storable_array l : storable (JArray l) ↔ Forall storable l.
Proof.
  change (storable (JArray l)) with (foldr (λ e rest, storable e ∧ rest) True l).
  induction l as [|e l IH]; simpl; [by split|].
  rewrite Forall_cons. by rewrite IH.
Qed.

Lemma storable_object ps :
  storable (JObject ps)
  ↔ Forall (λ kv, (wf_string kv.1 ∧ integer_like kv.1 = false) ∧ storable kv.2) ps
    ∧ NoDup (ps.*1).
Proof.
  change (storable (JObject ps))
    with (foldr (λ kv rest,
                   match kv with
                   | (k, v') =>
                       ((wf_string k ∧ integer_like k = false) ∧ storable v') ∧ rest
                   end) True ps ∧ NoDup (ps.*1)).
  assert (H : foldr (λ kv rest,
                       match kv with
                       | (k, v') =>
                           ((wf_string k ∧ integer_like k = false) ∧ storable v')
                           ∧ rest
                       end) True ps
              ↔ Forall (λ kv, (wf_string kv.1 ∧ integer_like kv.1 = false)
                               ∧ storable kv.2) ps).
  { induction ps as [|[k e] ps IH]; simpl; [by split|].
    rewrite Forall_cons. simpl. by rewrite IH. }
  by rewrite H.
Qed.

Lemma stringify_head v :
  storable v → ∃ c s, JSON_stringify v = c :: s ∧ is_json_ws c = false ∧ c ≠ 93.
Proof.
  destruct v as [|[]|x|x|l|ps]; intros Hv; try done;
    eexists _, _; (split; [reflexivity|]); by split.
Qed.

Lemma parse_value_bracket_unfold f r :
  parse_value (S f) (91 :: r)
  = match skip_ws r with
    | [] => PSyntaxError
    | d :: r' => if d =? 93 then POk (JArray []) r' else parse_elements f r []
    end.
Proof. reflexivity. Qed.

Lemma parse_elements_values l : ∀ e acc f r,
  Forall reads_back (e :: l) →
  (foldr (λ e rest, S (cost e) + rest) 0 (e :: l) ≤ f)%nat →
  parse_elements f (join_comma (map JSON_stringify (e :: l)) ++ 93 :: r) acc
  = POk (JArray (acc ++ e :: l)) r.
Proof.
  induction l as [|e' l IH]; intros e acc f r [He Hl]%Forall_cons Hf;
    (destruct f as [|f]; [simpl in Hf; lia|]); rewrite parse_elements_unfold.
  - cbn [map join_comma]. simpl in Hf. rewrite He by lia.
    by rewrite skip_ws_head.
  - change (join_comma (map JSON_stringify (e :: e' :: l)))
      with (JSON_stringify e ++ 44 :: join_comma (map JSON_stringify (e' :: l))).
    rewrite <-app_assoc, <-app_comm_cons.
    change (foldr (λ e rest, S (cost e) + rest) 0 (e :: e' :: l))%nat
      with (S (cost e) + foldr (λ e rest, S (cost e) + rest) 0 (e' :: l))%nat in Hf.
    rewrite He by lia. rewrite skip_ws_head by done.
    change (44 =? 44) with true. cbv iota.
    rewrite IH by (done || lia). by rewrite <-app_assoc.
Qed.

Lemma obj_set_fresh ps (k : jsstring) v :
  k ∉ ps.*1 → obj_set ps k v = ps ++ [(k, v)].
Proof.
  induction ps as [|[k' v'] ps IH]; [done|].
  rewrite fmap_cons, not_elem_of_cons. simpl. intros [Hne Hni].
  rewrite decide_False by done. by rewrite IH.
Qed.

Lemma parse_members_values ps : ∀ (k : jsstring) v acc f r,
  Forall (λ kv, wf_string kv.1 ∧ reads_back kv.2) ((k, v) :: ps) →
  NoDup (acc.*1 ++ ((k, v) :: ps).*1) →
  (foldr (λ kv rest, match kv with (_, v') => S (cost v') + rest end) 0
     ((k, v) :: ps) ≤ f)%nat →
  parse_members f (join_comma (map member_string ((k, v) :: ps)) ++ 125 :: r) acc
  = POk (JObject (acc ++ (k, v) :: ps)) r.
Proof.
  induction ps as [|[k' v'] ps IH]; intros k v acc f r [[Hk Hv] Hl]%Forall_cons Hnd Hf;
    (destruct f as [|f]; [simpl in Hf; lia|]).
  - cbn [map join_comma member_string]. rewrite <-!app_assoc, <-app_comm_cons.
    simpl in Hf, Hv.
    rewrite (parse_members_field _ _ _ v) by (done || (apply Hv; lia)).
    change (125 =? 44) with false. change (125 =? 125) with true. cbv iota.
    rewrite obj_set_fresh; [done|].
    apply NoDup_app in Hnd as (_ & Hd & _). intros Hin. apply (Hd k Hin).
    simpl. apply list_elem_of_here.
  - change (join_comma (map member_string ((k, v) :: (k', v') :: ps)))
      with (member_string (k, v) ++ 44 :: join_comma (map member_string ((k', v') :: ps))).
    cbn [member_string]. rewrite <-!app_assoc, <-!app_comm_cons.
    change (foldr (λ kv rest, match kv with (_, v') => S (cost v') + rest end) 0
              ((k, v) :: (k', v') :: ps))%nat
      with (S (cost v) + foldr (λ kv rest, match kv with (_, v') => S (cost v') + rest end) 0
              ((k', v') :: ps))%nat in Hf.
    simpl in Hv.
    rewrite (parse_members_field _ _ _ v) by (done || (apply Hv; lia)).
    change (44 =? 44) with true. cbv iota.
    assert (Hfresh : k ∉ acc.*1).
    { apply NoDup_app in Hnd as (_ & Hd & _). intros Hin. apply (Hd k Hin).
      simpl. apply list_elem_of_here. }
    rewrite obj_set_fresh by done.
    rewrite IH; [by rewrite <-app_assoc|done| |lia].
    rewrite fmap_app, <-app_assoc. simpl. exact Hnd.
Qed.

Lemma parse_value_brace_unfold f r :
  parse_value (S f) (123 :: r)
  = match skip_ws r with
    | [] => PSyntaxError
    | d :: r' => if d =? 125 then POk (JObject []) r' else parse_members f r []
    end.
Proof. reflexivity. Qed.

Lemma storable_reads_back v : storable v → reads_back v.
Proof.
  induction v as [|b|x|x|l IH|ps IH] using value_nested_ind; intros Hv f r Hf.
  - destruct f as [|f]; [simpl in Hf; lia|]. reflexivity.
  - destruct f as [|f]; [simpl in Hf; lia|]. apply parse_value_bool.
  - done.
  - destruct f as [|f]; [simpl in Hf; lia|]. by apply parse_value_string.
  - apply storable_array in Hv.
    destruct f as [|f]; [simpl in Hf; lia|].
    rewrite stringify_array, <-app_comm_cons, <-app_assoc.
    change ([93] ++ r) with (93 :: r). rewrite parse_value_bracket_unfold.
    destruct l as [|e l]; [reflexivity|].
    assert (Hrb : Forall reads_back (e :: l)).
    { rewrite Forall_forall in *. intros e' He'. apply IH; [done|by apply Hv]. }
    apply Forall_cons in Hv as [He _].
    destruct (stringify_head e He) as (c & s & Hs & Hws & Hc).
    assert (Hskip : ∃ s', join_comma (map JSON_stringify (e :: l)) ++ 93 :: r = c :: s').
    { destruct l; cbn [map join_comma]; rewrite Hs; by eexists. }
    destruct Hskip as [s' Hs']. rewrite Hs' at 1. rewrite skip_ws_head by done.
    rewrite (proj2 (N.eqb_neq c 93)) by done.
    apply parse_elements_values; [done|]. simpl in Hf. simpl. lia.
  - apply storable_object in Hv as [Hv Hnd].
    destruct f as [|f]; [simpl in Hf; lia|].
    rewrite stringify_object, <-app_comm_cons, <-app_assoc.
    change ([125] ++ r) with (125 :: r). rewrite parse_value_brace_unfold.
    destruct ps as [|[k e] ps]; [reflexivity|].
    assert (Hrb : Forall (λ kv, wf_string kv.1 ∧ reads_back kv.2) ((k, e) :: ps)).
    { rewrite Forall_forall in *. intros kv Hkv.
      destruct (Hv kv Hkv) as [[H1 _] H2]. split; [done|]. by apply IH. }
    assert (Hskip : ∃ s', join_comma (map member_string ((k, e) :: ps)) ++ 125 :: r
                          = 34 :: s').
    { destruct ps; cbn [map join_comma member_string]; unfold QuoteJSONString;
        by eexists. }
    destruct Hskip as [s' Hs']. rewrite Hs' at 1. rewrite skip_ws_head by done.
    change (34 =? 125) with false. cbv iota.
    apply (parse_members_values ps k e []); [done|done|].
    change (cost (JObject ((k, e) :: ps)))
      with (S (foldr (λ kv rest, match kv with (_, v') => S (cost v') + rest end) 0
                ((k, e) :: ps)))%nat in Hf.
    lia.
Qed.

Lemma join_comma_sum (parts : list jsstring) :
  (foldr (λ p rest, S (length p) + rest) 0 parts ≤ S (length (join_comma parts)))%nat.
Proof.
  induction parts as [|p ps IH]; [simpl; lia|].
  destruct ps as [|p' ps]; [simpl; lia|].
  change (join_comma (p :: p' :: ps)) with (p ++ 44 :: join_comma (p' :: ps)).
  rewrite length_app. simpl in *. lia.
Qed.

Lemma cost_bound v : storable v → (cost v ≤ 2 * length (JSON_stringify v))%nat.
Proof.
  induction v as [|b|x|x|l IH|ps IH] using value_nested_ind; intros Hv.
  - simpl. lia.
  - destruct b; simpl; lia.
  - done.
  - unfold JSON_stringify, QuoteJSONString. simpl. lia.
  - apply storable_array in Hv. rewrite stringify_array.
    pose proof (join_comma_sum (map JSON_stringify l)) as Hj.
    assert (Hs : (foldr (λ e rest, S (cost e) + rest) 0 l
                  ≤ 2 * foldr (λ p rest, S (length p) + rest) 0 (map JSON_stringify l))%nat).
    { clear Hj. induction l as [|e l IHl]; [simpl; lia|].
      apply Forall_cons in IH as [He IH]. apply Forall_cons in Hv as [Hve Hv].
      specialize (IHl IH Hv). specialize (He Hve). cbn [foldr map]. lia. }
    change (cost (JArray l)) with (S (foldr (λ e rest, S (cost e) + rest) 0 l))%nat.
    cbn [length]. rewrite length_app. cbn [length]. lia.
  - apply storable_object in Hv as [Hv _]. rewrite stringify_object.
    pose proof (join_comma_sum (map member_string ps)) as Hj.
    assert (Hs : (foldr (λ kv rest, match kv with (_, v') => S (cost v') + rest end) 0 ps
                  ≤ 2 * foldr (λ p rest, S (length p) + rest) 0 (map member_string ps))%nat).
    { clear Hj. induction ps as [|[k e] ps IHps]; [simpl; lia|].
      apply Forall_cons in IH as [He IH]. apply Forall_cons in Hv as [[_ Hve] Hv].
      specialize (IHps IH Hv). specialize (He Hve). simpl in He.
      cbn [map foldr member_string]. rewrite length_app. cbn [length]. lia. }
    change (cost (JObject ps))
      with (S (foldr (λ kv rest, match kv with (_, v') => S (cost v') + rest end) 0 ps))%nat.
    cbn [length]. rewrite length_app. cbn [length]. lia.
Qed.

(** [JSON.parse] after [JSON.stringify], on every storable value. *)
Lemma JSON_parse_stringify v :
  storable v → JSON_parse (JSON_stringify v) = Returned v.
Proof.
  intros Hv. unfold JSON_parse.
  pose proof (cost_bound v Hv) as Hc.
  rewrite <-(app_nil_r (JSON_stringify v)) at 2.
  rewrite (storable_reads_back v Hv) by lia. done.
Qed.

Lemma stringify_nonempty v : storable v → JSON_stringify v ≠ [].
Proof. intros Hv. destruct (stringify_head v Hv) as (c & s & -> & _). done. Qed.

End AllValues.

(** X20: setting the value of the hook and loading it again, for every
    storable value. Whether the setter is given the new value or a
    function of the old one: when React takes the new value for a changed
    one (it is not the old value by [Object.is]) and the browser takes the
    write, the state cell holds the new value, and the initialiser of the
    hook under the same key, with any initial value, returns the new value
    and logs nothing. When the new value is the old one by [Object.is],
    the state stays, the effect does not run and the browser, its storage
    included, is as it was. *)
Theorem hook_set_then_reload (key : jsstring) (initialValue : value)
    (arg : value + (value → value)) (identical : bool) (h : Hook) (b : Browser) :
  let v := storedValue (setStoredValue arg h) in
  storable v →
  accepts b key (JSON_stringify v) →
  (Object_is identical (storedValue h) v = false →
   ∃ b', useLocalStorage_set key arg identical h b = (Returned (mkHook v), b') ∧
         useLocalStorage_init key initialValue b' = (Returned v, b') ∧
         console b' = console b) ∧
  (Object_is identical (storedValue h) v = true →
   useLocalStorage_set key arg identical h b = (Returned h, b)).
Proof.
  intros v Hv Hacc. split; intros His.
  - exists (written b key (JSON_stringify v)). split_and!.
    + unfold useLocalStorage_set. fold v. rewrite His.
      unfold useLocalStorage_commit, bind.
      rewrite useLocalStorage_effect_client
        by (destruct Hacc as (st & -> & _); eauto).
      unfold try_catch. fold v. rewrite setItem_accepted by done.
      unfold ret. subst v. by destruct (setStoredValue arg h).
    + destruct (written_lookup _ _ _ Hacc) as (st' & Hw & Hb & Hk).
      rewrite (useLocalStorage_init_stored _ _ _ st' _ Hw Hb Hk).
      pose proof (stringify_nonempty v Hv) as Hne.
      pose proof (JSON_parse_stringify v Hv) as Hrt.
      destruct (JSON_stringify v) as [|c r]; [done|]. by rewrite Hrt.
    + unfold written. destruct Hacc as (st & -> & _). done.
  - unfold useLocalStorage_set. fold v. by rewrite His.
Qed.

Lemma hook_set_then_reload_witness :
  let v := JArray [JObject [(milk, JBool true); (bread, JNull)]; JString milk] in
  ∃ b', useLocalStorage_set tasks_key
          (inr (λ old, JArray [old; JString milk])) false
          (mkHook (JObject [(milk, JBool true); (bread, JNull)])) empty_browser
        = (Returned (mkHook v), b') ∧
        useLocalStorage_init tasks_key JNull b' = (Returned v, b') ∧
        console b' = console empty_browser.
Proof.
  intros v.
  destruct (hook_set_then_reload tasks_key JNull
              (inr (λ old, JArray [old; JString milk])) false
              (mkHook (JObject [(milk, JBool true); (bread, JNull)])) empty_browser)
    as [Hchanged _].
  - simpl. split_and!; try done; try apply wf_string_js.
    apply NoDup_cons. split; [|apply NoDup_singleton].
    rewrite list_elem_of_singleton. vm_compute. discriminate.
  - exists (mkStorage ∅ 5000 false). split_and!; [done..|].
    apply Nat.leb_le. by vm_compute.
  - by apply Hchanged.
Defined.

(** A setter call that gives the cell the boolean it holds writes nothing,
    also where the storage holds nothing under the key: a reload then
    returns the initial value, not the value of the cell. *)
Example hook_set_same_value_writes_nothing :
  useLocalStorage_set tasks_key (inl (JBool true)) false (mkHook (JBool true))
    empty_browser
  = (Returned (mkHook (JBool true)), empty_browser) ∧
  useLocalStorage_init tasks_key JNull empty_browser = (Returned JNull, empty_browser).
Proof.
  split; [done|].
  by rewrite (useLocalStorage_init_absent _ _ _ (mkStorage ∅ 5000 false)).
Qed.
